(** * The object model of the version-control engine (modules/cvs_objects.py)

    A shallow embedding of [Blob], [Tree], [Commit] and [TreeObjectData],
    of the directory materializer [Tree.initialize_from_directory], and of
    the two library functions the classes are built on:

    - [hashlib.sha1], embedded as an executable function after FIPS 180-4
      (32-bit words are [Z] with the wrap-around written out);
    - [pickle.dumps] / [pickle.loads], taken as an interface ([Pickle]): the
      byte layout of a pickle depends on the interpreter and its protocol
      version, so the development only relies on the contract that loading
      a dump gives the object back.  A small reference codec shows that the
      contract can be met and lets the examples compute.

    Python values are embedded as follows: [bytes] is [list byte], [str] is
    [string], a [dict] is an association list in insertion order whose keys
    are pairwise different, and an object is the record of its fields.
    Paths follow [posixpath]. *)

From Stdlib Require Import Ascii String.
From Stdlib Require Import Init.Byte Strings.Byte.
From Stdlib Require Import List ZArith Lia Bool Arith PeanoNat.
From Stdlib Require Import Permutation.
Import ListNotations.
Local Open Scope list_scope.

Set Implicit Arguments.

(* ===================================================================== *)
(** ** Byte strings *)

Definition bytes := list byte.

Definition bytes_eq_dec (a b : bytes) : {a = b} + {a <> b} :=
  list_eq_dec Byte.byte_eq_dec a b.

Definition bytes_eqb (a b : bytes) : bool :=
  if bytes_eq_dec a b then true else false.

(** The byte whose value is [z mod 256]. *)
Definition byte_of_Z (z : Z) : byte :=
  match Byte.of_N (Z.to_N (z mod 256)) with
  | Some b => b
  | None => x00
  end.

Definition Z_of_byte (b : byte) : Z := Z.of_N (Byte.to_N b).

(** A Python bytes literal written as text, [b'...']. *)
Definition b_ (s : string) : bytes := list_byte_of_string s.

(* ===================================================================== *)
(** ** hashlib.sha1 (FIPS 180-4, section 6.1) *)

Module SHA1.

Local Open Scope Z_scope.

Definition mask32 : Z := 0xFFFFFFFF.
Definition wrap (x : Z) : Z := x mod 2 ^ 32.
Definition add32 (x y : Z) : Z := wrap (x + y).
Definition rotl (n x : Z) : Z :=
  wrap (Z.lor (Z.shiftl x n) (Z.shiftr x (32 - n))).
Definition not32 (x : Z) : Z := Z.lxor x mask32.

Definition Ch (x y z : Z) : Z := Z.lor (Z.land x y) (Z.land (not32 x) z).
Definition Parity (x y z : Z) : Z := Z.lxor (Z.lxor x y) z.
Definition Maj (x y z : Z) : Z :=
  Z.lor (Z.lor (Z.land x y) (Z.land x z)) (Z.land y z).

Definition f (t : nat) (x y z : Z) : Z :=
  if (t <? 20)%nat then Ch x y z
  else if (t <? 40)%nat then Parity x y z
  else if (t <? 60)%nat then Maj x y z
  else Parity x y z.

Definition K (t : nat) : Z :=
  if (t <? 20)%nat then 0x5A827999
  else if (t <? 40)%nat then 0x6ED9EBA1
  else if (t <? 60)%nat then 0x8F1BBCDC
  else 0xCA62C1D6.

(** The five chaining words. *)
Record state := State { h0 : Z; h1 : Z; h2 : Z; h3 : Z; h4 : Z }.

Definition init : state :=
  State 0x67452301 0xEFCDAB89 0x98BADCFE 0x10325476 0xC3D2E1F0.

(** Big-endian conversions between words and bytes. *)
Definition word_of_bytes (b3 b2 b1 b0 : byte) : Z :=
  Z.lor (Z.shiftl (Z_of_byte b3) 24)
        (Z.lor (Z.shiftl (Z_of_byte b2) 16)
               (Z.lor (Z.shiftl (Z_of_byte b1) 8) (Z_of_byte b0))).

Definition bytes_of_word (w : Z) : bytes :=
  [ byte_of_Z (Z.shiftr w 24); byte_of_Z (Z.shiftr w 16);
    byte_of_Z (Z.shiftr w 8); byte_of_Z w ].

Fixpoint words_of_bytes (l : bytes) : list Z :=
  match l with
  | b3 :: b2 :: b1 :: b0 :: rest => word_of_bytes b3 b2 b1 b0 :: words_of_bytes rest
  | _ => []
  end.

(** Padding (section 5.1.1): a one bit, zero bits up to 448 mod 512, and the
    bit length of the message as a 64-bit big-endian number. *)
Definition bit_length (msg : bytes) : Z := (8 * Z.of_nat (length msg)) mod 2 ^ 64.

Definition length_block (msg : bytes) : bytes :=
  map (fun i => byte_of_Z (Z.shiftr (bit_length msg) (8 * Z.of_nat i)))
      [7; 6; 5; 4; 3; 2; 1; 0]%nat.

Definition zero_pad (msg : bytes) : nat :=
  Z.to_nat ((55 - Z.of_nat (length msg)) mod 64).

Definition pad (msg : bytes) : bytes :=
  msg ++ x80 :: repeat x00 (zero_pad msg) ++ length_block msg.

(** The message schedule (section 6.1.2, step 1), kept newest word first. *)
Fixpoint extend (n : nat) (rev_w : list Z) : list Z :=
  match n with
  | O => rev_w
  | S n' =>
      let w := rotl 1 (Z.lxor (Z.lxor (nth 2 rev_w 0) (nth 7 rev_w 0))
                              (Z.lxor (nth 13 rev_w 0) (nth 15 rev_w 0))) in
      extend n' (w :: rev_w)
  end.

Definition schedule (block : list Z) : list Z :=
  rev (extend 64 (rev block)).

(** One round on the working variables [a b c d e] (step 3). *)
Definition round (t : nat) (w : Z) (s : state) : state :=
  let T := add32 (add32 (add32 (add32 (rotl 5 (h0 s)) (f t (h1 s) (h2 s) (h3 s)))
                               (h4 s)) (K t)) w in
  State T (h0 s) (rotl 30 (h1 s)) (h2 s) (h3 s).

Fixpoint rounds (t : nat) (ws : list Z) (s : state) : state :=
  match ws with
  | [] => s
  | w :: ws' => rounds (S t) ws' (round t w s)
  end.

Definition compress (s : state) (block : list Z) : state :=
  let r := rounds 0 (schedule block) s in
  State (add32 (h0 s) (h0 r)) (add32 (h1 s) (h1 r)) (add32 (h2 s) (h2 r))
        (add32 (h3 s) (h3 r)) (add32 (h4 s) (h4 r)).

(** The 16-word blocks of a padded message. *)
Fixpoint blocks (fuel : nat) (ws : list Z) : list (list Z) :=
  match fuel with
  | O => []
  | S fuel' =>
      match ws with
      | [] => []
      | _ => firstn 16 ws :: blocks fuel' (skipn 16 ws)
      end
  end.

Definition output (s : state) : bytes :=
  bytes_of_word (h0 s) ++ bytes_of_word (h1 s) ++ bytes_of_word (h2 s)
  ++ bytes_of_word (h3 s) ++ bytes_of_word (h4 s).

Definition digest (msg : bytes) : bytes :=
  let ws := words_of_bytes (pad msg) in
  output (fold_left compress (blocks (length ws) ws) init).

End SHA1.

(** [hashlib.sha1(data).digest()] *)
Definition sha1 (data : bytes) : bytes := SHA1.digest data.


(* ===================================================================== *)
(** ** os.path (posixpath) *)

Definition sep : ascii := "/"%char.

Definition startswith_sep (s : string) : bool :=
  match s with
  | String c _ => Ascii.eqb c sep
  | EmptyString => false
  end.

Fixpoint endswith_sep (s : string) : bool :=
  match s with
  | EmptyString => false
  | String c EmptyString => Ascii.eqb c sep
  | String _ r => endswith_sep r
  end.

Definition is_empty (s : string) : bool :=
  match s with EmptyString => true | _ => false end.

(** [os.path.join(a, b)]: an absolute [b] replaces [a]; otherwise [b] is
    appended, after a separator unless [a] is empty or already ends in
    one. *)
Definition join (a b : string) : string :=
  if startswith_sep b then b
  else if is_empty a || endswith_sep a then (a ++ b)%string
  else (a ++ String sep b)%string.

(** What [join] puts before a name without separator. *)
Definition join_prefix (a : string) : string :=
  if is_empty a || endswith_sep a then a else (a ++ String sep EmptyString)%string.

(** [p.rfind(sep)], [-1] when there is no separator. *)
Fixpoint rfind_sep (p : string) : Z :=
  match p with
  | EmptyString => (-1)%Z
  | String c r =>
      let i := rfind_sep r in
      if (0 <=? i)%Z then (i + 1)%Z
      else if Ascii.eqb c sep then 0%Z else (-1)%Z
  end.

(** The slice [p[i:]]. *)
Fixpoint slice_from (i : nat) (p : string) : string :=
  match i, p with
  | O, _ => p
  | S _, EmptyString => EmptyString
  | S i', String _ r => slice_from i' r
  end.

(** [os.path.basename(p)]: [i = p.rfind(sep) + 1; return p[i:]]. *)
Definition basename (p : string) : string :=
  let i := (rfind_sep p + 1)%Z in
  slice_from (Z.to_nat i) p.

(** Whether a separator occurs in [s]. *)
Fixpoint has_sep (s : string) : bool :=
  match s with
  | EmptyString => false
  | String c r => Ascii.eqb c sep || has_sep r
  end.

(* ===================================================================== *)
(** ** TreeObjectData *)

(** The two classes an entry's [object_type] field refers to. *)
Inductive cvs_class := Blob_class | Tree_class.

Definition cvs_class_eqb (a b : cvs_class) : bool :=
  match a, b with
  | Blob_class, Blob_class | Tree_class, Tree_class => true
  | _, _ => false
  end.

(** [@dataclass(eq=True, frozen=True) class TreeObjectData] *)
Record TreeObjectData := {
  path : string;
  object_type : cvs_class;
  TreeObjectData_is_removed : bool
}.

(** The constructor with the default [is_removed=False]. *)
Definition TreeObjectData_init (p : string) (ty : cvs_class) : TreeObjectData :=
  {| path := p; object_type := ty; TreeObjectData_is_removed := false |}.

(** The entry of a deleted file. *)
Definition tombstone (p : string) : TreeObjectData :=
  {| path := p; object_type := Blob_class; TreeObjectData_is_removed := true |}.

(** The [name] property. *)
Definition name (self : TreeObjectData) : string := basename (path self).

(** The generated [__eq__]: the tuples of the three fields are compared. *)
Definition TreeObjectData_eq (self other : TreeObjectData) : bool :=
  String.eqb (path self) (path other)
  && cvs_class_eqb (object_type self) (object_type other)
  && Bool.eqb (TreeObjectData_is_removed self) (TreeObjectData_is_removed other).

(* ===================================================================== *)
(** ** dict, keyed by TreeObjectData

    Entries are kept in insertion order.  Assigning to a key that is
    present replaces its value in place; a new key goes to the end. *)

Definition dict := list (TreeObjectData * bytes).

Fixpoint dict_setitem (d : dict) (k : TreeObjectData) (v : bytes) : dict :=
  match d with
  | [] => [(k, v)]
  | (k', v') :: rest =>
      if TreeObjectData_eq k' k then (k', v) :: rest
      else (k', v') :: dict_setitem rest k v
  end.

Fixpoint dict_get (d : dict) (k : TreeObjectData) : option bytes :=
  match d with
  | [] => None
  | (k', v') :: rest =>
      if TreeObjectData_eq k' k then Some v' else dict_get rest k
  end.

Definition keys (d : dict) : list TreeObjectData := map fst d.

(** [d1 == d2]: as many entries, and every key of [d1] is a key of [d2]
    with an equal value. *)
Definition dict_eq (d1 d2 : dict) : bool :=
  (length d1 =? length d2)%nat
  && forallb (fun kv => match dict_get d2 (fst kv) with
                        | Some v => bytes_eqb (snd kv) v
                        | None => false
                        end) d1.

(** The dictionaries Python can build: no key occurs twice. *)
Definition dict_wf (d : dict) : Prop := NoDup (keys d).

(* ===================================================================== *)
(** ** Blob, Tree, Commit: the fields *)

Record Blob := {
  content : bytes;
  Blob_is_removed : bool
}.

Record Tree := {
  children : dict;
  Tree_is_removed : bool
}.

Record Commit := {
  tree : Tree;
  parent_commit_hash : bytes;
  message : string
}.

(** An instance of one of the three concrete subclasses of [CVSObject]. *)
Inductive CVSObject :=
| A_Blob (b : Blob)
| A_Tree (t : Tree)
| A_Commit (c : Commit).

(* ===================================================================== *)
(** ** pickle

    [pickle.dumps] writes the whole state of an object, nested objects
    included; [pickle.loads] fails on bytes it cannot decode.  What a dump
    looks like is left open. *)

Class Pickle := {
  pickle_dumps : CVSObject -> bytes;
  pickle_loads : bytes -> option CVSObject
}.

(** The contract of the library: loading a dump gives the object back. *)
Definition pickle_roundtrip (P : Pickle) : Prop :=
  forall o : CVSObject, pickle_loads (pickle_dumps o) = Some o.

(** Two byte strings on which SHA-1 does not collide. *)
Definition sha1_separates (x y : bytes) : Prop :=
  sha1 x = sha1 y -> x = y.

(* ===================================================================== *)
(** ** Blob *)

Definition Blob_init (c : bytes) (is_removed : bool) : Blob :=
  {| content := c; Blob_is_removed := is_removed |}.

Definition Blob_header : bytes := b_ "blob #" ++ [x00].

Definition Blob_get_hash (self : Blob) : bytes :=
  let header := Blob_header in
  sha1 (header ++ content self).



(* ===================================================================== *)
(** ** Tree *)

Definition Tree_init (is_removed : bool) : Tree :=
  {| children := []; Tree_is_removed := is_removed |}.

(** [self.children[data] = object_hash]; the updated object is returned. *)
Definition Tree_add_object (self : Tree) (data : TreeObjectData)
    (object_hash : bytes) : Tree :=
  {| children := dict_setitem (children self) data object_hash;
     Tree_is_removed := Tree_is_removed self |}.

Definition Tree_serialize {P : Pickle} (self : Tree) : bytes :=
  pickle_dumps (A_Tree self).


Definition Tree_get_hash {P : Pickle} (self : Tree) : bytes :=
  sha1 (Tree_serialize self).

Definition Tree_eq (self other : Tree) : bool :=
  dict_eq (children self) (children other)
  && Bool.eqb (Tree_is_removed self) (Tree_is_removed other).

(** Inserting a list of entries one after the other. *)
Definition add_objects (t : Tree) (entries : list (TreeObjectData * bytes)) : Tree :=
  fold_left (fun acc e => Tree_add_object acc (fst e) (snd e)) entries t.

(* ===================================================================== *)
(** ** Commit *)

Definition Commit_init (t : Tree) (msg : string) : Commit :=
  {| tree := t; parent_commit_hash := []; message := msg |}.

Definition Commit_header : bytes := b_ "commit #" ++ [x00].

Definition Commit_get_hash {P : Pickle} (self : Commit) : bytes :=
  let header := Commit_header in
  sha1 (header ++ Tree_get_hash (tree self) ++ parent_commit_hash self).

Definition set_parent_commit_hash (c : Commit) (h : bytes) : Commit :=
  {| tree := tree c; parent_commit_hash := h; message := message c |}.

Definition Commit_derive_commit {P : Pickle} (self : Commit) (t : Tree)
    (msg : string) : Commit :=
  let commit := Commit_init t msg in
  let commit := set_parent_commit_hash commit (Commit_get_hash self) in
  commit.



Definition Commit_eq (self other : Commit) : bool :=
  Tree_eq (tree self) (tree other)
  && String.eqb (message self) (message other)
  && bytes_eqb (parent_commit_hash self) (parent_commit_hash other).

(** Commits obtained from the constructor by [derive_commit], with SHA-1
    not colliding between a Commit and the one it is derived from. *)
Inductive chained (P : Pickle) : Commit -> Prop :=
| chained_init (t : Tree) (m : string) : chained P (Commit_init t m)
| chained_derive (p : Commit) (t : Tree) (m : string) :
    chained P p ->
    sha1_separates
      (Commit_header ++ Tree_get_hash (tree (Commit_derive_commit p t m))
       ++ parent_commit_hash (Commit_derive_commit p t m))
      (Commit_header ++ Tree_get_hash (tree p) ++ parent_commit_hash p) ->
    chained P (Commit_derive_commit p t m).

(** The three operations of the abstract base class, by dynamic dispatch. *)
Definition get_hash {P : Pickle} (o : CVSObject) : bytes :=
  match o with
  | A_Blob b => Blob_get_hash b
  | A_Tree t => Tree_get_hash t
  | A_Commit c => Commit_get_hash c
  end.



(* ===================================================================== *)
(** ** The directory materializer

    The part of the file system below a directory: a file with its bytes,
    or a directory with its entries in the order [os.listdir] yields
    them. *)

#[local] Set Warnings "-register-all".

Inductive fsnode :=
| File (data : bytes)
| Dir (entries : list (string * fsnode)).

(** [Tree.initialize_from_directory(directory)], where [node] is what the
    file system holds at [directory].  [os.listdir] raises on a path that
    is not a directory ([None]). *)
Fixpoint Tree_initialize_from_directory {P : Pickle} (node : fsnode)
    (directory : string) : option Tree :=
  match node with
  | File _ => None
  | Dir entries =>
      (fix loop (listing : list (string * fsnode)) (tree : Tree) : option Tree :=
         match listing with
         | [] => Some tree
         | (file, child) :: rest =>
             let full_path := join directory file in
             match child with
             | Dir _ =>
                 let full_path := join full_path "" in
                 let file_data := TreeObjectData_init full_path Tree_class in
                 match Tree_initialize_from_directory child full_path with
                 | Some obj => loop rest (Tree_add_object tree file_data (Tree_get_hash obj))
                 | None => None
                 end
             | File data =>
                 let file_data := TreeObjectData_init full_path Blob_class in
                 let obj := Blob_init data false in
                 loop rest (Tree_add_object tree file_data (Blob_get_hash obj))
             end
         end) entries (Tree_init false)
  end.


(* ===================================================================== *)
(** ** Objects in memory

    Python objects live in a heap and the methods above act on references.
    The store lists the objects by address.  A [Commit] carries the value
    of its tree: the properties below never change a Tree after a Commit
    has been given it. *)

Definition Store := list CVSObject.

Definition store_get (st : Store) (a : nat) : option CVSObject := nth_error st a.

Fixpoint store_set (st : Store) (a : nat) (o : CVSObject) : Store :=
  match st, a with
  | [], _ => []
  | _ :: rest, O => o :: rest
  | x :: rest, S a' => x :: store_set rest a' o
  end.

(** Creating an object: it gets the next free address. *)
Definition store_new (st : Store) (o : CVSObject) : Store * nat :=
  (st ++ [o], length st).

(** [x.get_hash()] for the object at address [a]; nothing is written. *)
Definition call_get_hash {P : Pickle} (st : Store) (a : nat) : option (Store * bytes) :=
  match store_get st a with
  | Some o => Some (st, get_hash o)
  | None => None
  end.

(** [t.add_object(data, object_hash)] for the Tree at address [self]. *)
Definition call_add_object (st : Store) (self : nat) (data : TreeObjectData)
    (object_hash : bytes) : option Store :=
  match store_get st self with
  | Some (A_Tree t) => Some (store_set st self (A_Tree (Tree_add_object t data object_hash)))
  | _ => None
  end.

(** [p.derive_commit(tree, message)] for the Commit at address [self]:
    a Commit is created, then its [parent_commit_hash] is assigned. *)
Definition call_derive_commit {P : Pickle} (st : Store) (self : nat) (t : Tree)
    (msg : string) : option (Store * nat) :=
  match store_get st self with
  | Some (A_Commit p) =>
      let (st1, commit) := store_new st (A_Commit (Commit_init t msg)) in
      match store_get st1 commit with
      | Some (A_Commit c) =>
          Some (store_set st1 commit
                  (A_Commit (set_parent_commit_hash c (Commit_get_hash p))),
                commit)
      | _ => None
      end
  | _ => None
  end.

(* ===================================================================== *)
(** ** A reference codec

    One way to meet the [Pickle] interface.  A byte string is written with
    a [01] before every byte and a closing [00]; a dict is written the same
    way, entry by entry; an object starts with a byte for its class. *)

Module RefCodec.

Definition parser (A : Type) := bytes -> option (A * bytes).

Definition enc_bool (b : bool) : bytes := [if b then x01 else x00].

Definition dec_bool : parser bool := fun inp =>
  match inp with
  | x00 :: rest => Some (false, rest)
  | x01 :: rest => Some (true, rest)
  | _ => None
  end.

Fixpoint enc_bytes (l : bytes) : bytes :=
  match l with
  | [] => [x00]
  | b :: r => x01 :: b :: enc_bytes r
  end.

Fixpoint dec_bytes (inp : bytes) : option (bytes * bytes) :=
  match inp with
  | x00 :: rest => Some ([], rest)
  | x01 :: b :: rest =>
      match dec_bytes rest with
      | Some (l, rest') => Some (b :: l, rest')
      | None => None
      end
  | _ => None
  end.

Definition enc_str (s : string) : bytes := enc_bytes (list_byte_of_string s).

Definition dec_str : parser string := fun inp =>
  match dec_bytes inp with
  | Some (l, rest) => Some (string_of_list_byte l, rest)
  | None => None
  end.

Definition enc_class (c : cvs_class) : bytes :=
  [match c with Blob_class => x00 | Tree_class => x01 end].

Definition dec_class : parser cvs_class := fun inp =>
  match inp with
  | x00 :: rest => Some (Blob_class, rest)
  | x01 :: rest => Some (Tree_class, rest)
  | _ => None
  end.

Definition enc_data (d : TreeObjectData) : bytes :=
  enc_str (path d) ++ enc_class (object_type d)
  ++ enc_bool (TreeObjectData_is_removed d).

Definition dec_data : parser TreeObjectData := fun inp =>
  match dec_str inp with
  | Some (p, r1) =>
      match dec_class r1 with
      | Some (c, r2) =>
          match dec_bool r2 with
          | Some (b, r3) =>
              Some ({| path := p; object_type := c;
                       TreeObjectData_is_removed := b |}, r3)
          | None => None
          end
      | None => None
      end
  | None => None
  end.

Fixpoint enc_dict (d : dict) : bytes :=
  match d with
  | [] => [x00]
  | (k, v) :: rest => x01 :: enc_data k ++ enc_bytes v ++ enc_dict rest
  end.

Fixpoint dec_dict (fuel : nat) (inp : bytes) : option (dict * bytes) :=
  match fuel with
  | O => None
  | S fuel' =>
      match inp with
      | x00 :: rest => Some ([], rest)
      | x01 :: r0 =>
          match dec_data r0 with
          | Some (k, r1) =>
              match dec_bytes r1 with
              | Some (v, r2) =>
                  match dec_dict fuel' r2 with
                  | Some (d, r3) => Some ((k, v) :: d, r3)
                  | None => None
                  end
              | None => None
              end
          | None => None
          end
      | _ => None
      end
  end.

Definition enc_blob (b : Blob) : bytes :=
  enc_bytes (content b) ++ enc_bool (Blob_is_removed b).

Definition dec_blob : parser Blob := fun inp =>
  match dec_bytes inp with
  | Some (c, r1) =>
      match dec_bool r1 with
      | Some (b, r2) => Some ({| content := c; Blob_is_removed := b |}, r2)
      | None => None
      end
  | None => None
  end.

Definition enc_tree (t : Tree) : bytes :=
  enc_dict (children t) ++ enc_bool (Tree_is_removed t).

Definition dec_tree : parser Tree := fun inp =>
  match dec_dict (length inp) inp with
  | Some (d, r1) =>
      match dec_bool r1 with
      | Some (b, r2) => Some ({| children := d; Tree_is_removed := b |}, r2)
      | None => None
      end
  | None => None
  end.

Definition enc_commit (c : Commit) : bytes :=
  enc_tree (tree c) ++ enc_bytes (parent_commit_hash c) ++ enc_str (message c).

Definition dec_commit : parser Commit := fun inp =>
  match dec_tree inp with
  | Some (t, r1) =>
      match dec_bytes r1 with
      | Some (h, r2) =>
          match dec_str r2 with
          | Some (m, r3) =>
              Some ({| tree := t; parent_commit_hash := h; message := m |}, r3)
          | None => None
          end
      | None => None
      end
  | None => None
  end.

Definition dumps (o : CVSObject) : bytes :=
  match o with
  | A_Blob b => x00 :: enc_blob b
  | A_Tree t => x01 :: enc_tree t
  | A_Commit c => x02 :: enc_commit c
  end.

Definition whole {A : Type} (wrap : A -> CVSObject) (r : option (A * bytes))
    : option CVSObject :=
  match r with
  | Some (a, []) => Some (wrap a)
  | _ => None
  end.

Definition loads (inp : bytes) : option CVSObject :=
  match inp with
  | x00 :: rest => whole A_Blob (dec_blob rest)
  | x01 :: rest => whole A_Tree (dec_tree rest)
  | x02 :: rest => whole A_Commit (dec_commit rest)
  | _ => None
  end.

Definition codec : Pickle :=
  {| pickle_dumps := dumps; pickle_loads := loads |}.

End RefCodec.


(* ===================================================================== *)
(** ** Commit.__hash__ *)

(** [int.from_bytes(b, byteorder='big')] *)
Definition int_from_bytes (b : bytes) : Z :=
  fold_left (fun acc x => (256 * acc + Z_of_byte x)%Z) b 0%Z.

(** [int.from_bytes(b, byteorder='big', signed=True)]: two's complement on
    [8 * len(b)] bits; the empty byte string gives [0]. *)
Definition int_from_bytes_signed (b : bytes) : Z :=
  match b with
  | [] => 0%Z
  | _ =>
      let u := int_from_bytes b in
      let bits := (8 * Z.of_nat (length b))%Z in
      if (2 ^ (bits - 1) <=? u)%Z then (u - 2 ^ bits)%Z else u
  end.

(** [Commit.__hash__] *)
Definition Commit_hash {P : Pickle} (self : Commit) : Z :=
  int_from_bytes_signed (Commit_get_hash self).

(* ===================================================================== *)
(** ** The entries of a materialized directory *)

(** The names [os.listdir] can yield: not empty, without separator. *)
Definition file_name (n : string) : Prop := n <> EmptyString /\ has_sep n = false.

(** The key [initialize_from_directory] builds for an entry of [directory]. *)
Definition entry_key (directory : string) (e : string * fsnode) : TreeObjectData :=
  match snd e with
  | Dir _ => TreeObjectData_init (join (join directory (fst e)) "") Tree_class
  | File _ => TreeObjectData_init (join directory (fst e)) Blob_class
  end.



(* ===================================================================== *)
(** ** str and genericpath, as shell.py uses them *)

(** [s.split(' ')] *)
Fixpoint split_space (s : string) : list string :=
  match s with
  | EmptyString => [EmptyString]
  | String c r =>
      if Ascii.eqb c " " then EmptyString :: split_space r
      else match split_space r with
           | piece :: pieces => String c piece :: pieces
           | [] => [String c EmptyString]
           end
  end.

(** [' '.join(pieces)] *)
Fixpoint join_space (pieces : list string) : string :=
  match pieces with
  | [] => EmptyString
  | [piece] => piece
  | piece :: rest => (piece ++ String " " (join_space rest))%string
  end.

(** [s.startswith(p)] *)
Fixpoint startswith (s p : string) : bool :=
  match p with
  | EmptyString => true
  | String c p' =>
      match s with
      | String d s' => Ascii.eqb c d && startswith s' p'
      | EmptyString => false
      end
  end.

(** [a < b] on [str]: lexicographic on the code points. *)
Fixpoint str_ltb (a b : string) : bool :=
  match a, b with
  | _, EmptyString => false
  | EmptyString, String _ _ => true
  | String x a', String y b' =>
      if (N_of_ascii x <? N_of_ascii y)%N then true
      else if Ascii.eqb x y then str_ltb a' b'
      else false
  end.

(** [min((a, b))] and [max((a, b))]: the first of the least, resp. greatest. *)
Definition str_min (a b : string) : string := if str_ltb b a then b else a.
Definition str_max (a b : string) : string := if str_ltb a b then b else a.

(** The loop of [os.path.commonprefix]:
    [for i, c in enumerate(s1): if c != s2[i]: return s1[:i]] and then
    [return s1]; [s2[i]] raises [IndexError] past the end ([None]). *)
Fixpoint commonprefix_loop (s1 s2 : string) : option string :=
  match s1 with
  | EmptyString => Some EmptyString
  | String c r1 =>
      match s2 with
      | EmptyString => None
      | String c2 r2 =>
          if Ascii.eqb c c2 then option_map (String c) (commonprefix_loop r1 r2)
          else Some EmptyString
      end
  end.

(** [os.path.commonprefix([a, b])] *)
Definition commonprefix (a b : string) : option string :=
  commonprefix_loop (str_min a b) (str_max a b).

(* ===================================================================== *)
(** ** The shell (shell.py)

    The operating system and the class [CVS] of modules/cvs.py, which is
    not part of these sources, are given by what their calls return.
    [os.chdir] is taken to succeed exactly on directories;
    [CVS.initialize_repository], [CVS.update_index] and
    [CVS.add_to_staged] are taken to return. *)

Record OS := {
  path_exists : string -> bool;
  path_isdir : string -> bool;
  abspath : string -> string -> string;
  listdir : string -> option (list string);
  is_repository_exists : string -> bool
}.

(** [os.path.abspath] of an absolute path does not depend on the current
    directory, and normalizing twice changes nothing. *)
Definition abspath_stable (os : OS) : Prop :=
  forall cwd cwd' p : string, abspath os cwd' (abspath os cwd p) = abspath os cwd p.

(** The object [CVS(directory)]. *)
Inductive CVS := CVS_init (directory : string).

(** A [CVSShell], the class attribute [prompt], and the current directory
    of the process. *)
Record CVSShell := {
  cvs : option CVS;
  path_to_repository : option string;
  working_directory : string;
  prompt : option string;
  getcwd : string
}.

Inductive exn := AttributeError | TypeError | IndexError
               | FileNotFoundError | NotADirectoryError.

(** How a command ends: it returns, with what it printed or passed on, or
    it raises; in both cases with the state it leaves. *)
Inductive outcome (A : Type) :=
| Returned (self : CVSShell) (a : A)
| Raised (self : CVSShell) (e : exn).

Arguments Returned {A} self a.
Arguments Raised {A} self e.

Definition _set_working_directory (os : OS) (self : CVSShell) (directory : string)
    : outcome unit :=
  let wd := abspath os (getcwd self) directory in
  let self := {| cvs := cvs self; path_to_repository := path_to_repository self;
                 working_directory := wd; prompt := prompt self;
                 getcwd := getcwd self |} in
  if path_isdir os wd then
    Returned {| cvs := cvs self; path_to_repository := path_to_repository self;
                working_directory := wd;
                prompt := Some (wd ++ "$ ")%string;
                getcwd := wd |} tt
  else Raised self NotADirectoryError.

Definition set_repository (self : CVSShell) (c : option CVS) (p : option string)
    : CVSShell :=
  {| cvs := c; path_to_repository := p;
     working_directory := working_directory self; prompt := prompt self;
     getcwd := getcwd self |}.

(** [do_cd]; the printed lines are returned. *)
Definition do_cd (os : OS) (self : CVSShell) (arg : string) : outcome (list string) :=
  let directory := abspath os (getcwd self) arg in
  if negb (path_exists os directory) then
    Returned self [("can not find directory: " ++ directory)%string]
  else
    match _set_working_directory os self directory with
    | Raised self e => Raised self e
    | Returned self _ =>
        if is_repository_exists os directory then
          Returned (set_repository self (Some (CVS_init directory)) (Some directory)) []
        else
          match path_to_repository self with
          | None => Returned self []
          | Some repo =>
              if is_empty repo then Returned self []
              else
                match commonprefix directory repo with
                | None => Raised self IndexError
                | Some common =>
                    if negb (String.eqb common repo) then
                      Returned (set_repository self None None) []
                    else Returned self []
                end
          end
    end.

(** [do_init] *)
Definition do_init (os : OS) (self : CVSShell) (arg : string) : outcome (list string) :=
  if is_repository_exists os (working_directory self) then Returned self []
  else
    Returned (set_repository self (Some (CVS_init (working_directory self)))
                (Some (working_directory self)))
      [("initialized repository at " ++ working_directory self)%string].

(** [CVSShell()] started in the directory [cwd]. *)
Definition CVSShell_init (os : OS) (cwd : string) : outcome (list string) :=
  do_cd os {| cvs := None; path_to_repository := None; working_directory := cwd;
              prompt := None; getcwd := cwd |} cwd.

(** The body of the loop of [do_add] for one path: the TreeObjectData
    handed to [add_to_staged]. *)
Definition staged_data (os : OS) (repo p : string) : TreeObjectData :=
  let path := join repo p in
  let is_removed := negb (path_exists os path) in
  if path_isdir os path || (is_removed && endswith_sep path) then
    {| path := join path ""; object_type := Tree_class;
       TreeObjectData_is_removed := is_removed |}
  else
    {| path := path; object_type := Blob_class;
       TreeObjectData_is_removed := is_removed |}.

(** [do_add]; the TreeObjectData handed to [add_to_staged] are returned,
    in order. *)
Definition do_add (os : OS) (self : CVSShell) (arg : string)
    : outcome (list TreeObjectData) :=
  match cvs self with
  | None => Raised self AttributeError
  | Some _ =>
      match (if String.eqb arg "." then listdir os "modules"
             else Some (split_space arg)) with
      | None => Raised self FileNotFoundError
      | Some to_add =>
          match to_add, path_to_repository self with
          | [], _ => Returned self []
          | _ :: _, None => Raised self TypeError
          | _ :: _, Some repo => Returned self (map (staged_data os repo) to_add)
          end
      end
  end.

(** The states a shell goes through: it is created, then [do_cd] and
    [do_init] return. *)
Inductive reachable : CVSShell -> Prop :=
| reachable_new (os : OS) (cwd : string) (s : CVSShell) (out : list string) :
    abspath_stable os ->
    CVSShell_init os cwd = Returned s out -> reachable s
| reachable_cd (os : OS) (s s' : CVSShell) (arg : string) (out : list string) :
    reachable s -> abspath_stable os ->
    do_cd os s arg = Returned s' out -> reachable s'
| reachable_init (os : OS) (s s' : CVSShell) (arg : string) (out : list string) :
    reachable s ->
    do_init os s arg = Returned s' out -> reachable s'.

(** The number of spaces in [s]. *)
Fixpoint count_space (s : string) : nat :=
  match s with
  | EmptyString => 0
  | String c r => (if Ascii.eqb c " " then 1 else 0) + count_space r
  end.

(** What every state of a shell satisfies (see [reachable_shell_inv]):
    the repository path and the [CVS] object are set together, the
    repository path is a leading part of the working directory, the
    process is in the working directory, and the prompt shows it. *)
Definition shell_inv (s : CVSShell) : Prop :=
  (forall repo : string,
     path_to_repository s = Some repo ->
     cvs s = Some (CVS_init repo) /\ startswith (working_directory s) repo = true)
  /\ (path_to_repository s = None -> cvs s = None)
  /\ getcwd s = working_directory s
  /\ (prompt s = None \/ prompt s = Some (working_directory s ++ "$ ")%string).

(** A small file system for the examples: [/home/proj] holds a repository
    with [a.txt] and [sub/]; [/home/project2] is a directory beside it. *)
Definition example_os : OS :=
  let dirs := ["/"; "/home"; "/home/proj"; "/home/proj/sub"; "/home/proj/sub/";
               "/home/proj/"; "/home/project2"]%string in
  let files := ["/home/proj/a.txt"; "/home/notes.txt"]%string in
  let mem p l := existsb (String.eqb p) l in
  {| path_exists := fun p => mem p dirs || mem p files;
     path_isdir := fun p => mem p dirs;
     abspath := fun cwd p =>
       if startswith_sep p then p
       else if startswith_sep cwd then join cwd p
       else join (String sep cwd) p;
     listdir := fun p => None;
     is_repository_exists := fun p => String.eqb p "/home/proj" |}.

(** ** Values for the examples *)

(** Bytes written in hexadecimal. *)
Definition hex (s : string) : bytes :=
  (fix go (l : list ascii) : bytes :=
     match l with
     | hi :: lo :: rest =>
         let v c := let n := nat_of_ascii c in
                    if (n <? 58)%nat then (n - 48)%nat else (n - 87)%nat in
         byte_of_Z (Z.of_nat (16 * v hi + v lo)) :: go rest
     | _ => []
     end) (list_ascii_of_string s).

(** The hashes of some Blobs and of the empty Tree (the latter under the
    reference codec), evaluated once. *)
Definition hash_hello : bytes :=
  Eval vm_compute in Blob_get_hash (Blob_init (b_ "hello") false).
Definition hash_world : bytes :=
  Eval vm_compute in Blob_get_hash (Blob_init (b_ "world") false).
Definition hash_one : bytes :=
  Eval vm_compute in Blob_get_hash (Blob_init (b_ "one") false).
Definition hash_two : bytes :=
  Eval vm_compute in Blob_get_hash (Blob_init (b_ "two") false).
Definition hash_empty_tree : bytes :=
  Eval vm_compute in Tree_get_hash (P:=RefCodec.codec) (Tree_init false).


(* ===================================================================== *)
(** * Properties *)

(** ** SHA-1: test vectors and the size of a digest *)

Example sha1_abc : sha1 (b_ "abc") = hex "a9993e364706816aba3e25717850c26c9cd0d89d".
Proof. vm_compute. reflexivity. Qed.

Example sha1_empty : sha1 [] = hex "da39a3ee5e6b4b0d3255bfef95601890afd80709".
Proof. vm_compute. reflexivity. Qed.

Example sha1_two_blocks :
  sha1 (b_ "abcdbcdecdefdefgefghfghighijhijkijkljklmklmnlmnomnopnopq")
  = hex "84983e441c3bd26ebaae4aa1f95129e5e54670f1".
Proof. vm_compute. reflexivity. Qed.

Example example_hashes :
  hash_hello = Blob_get_hash (Blob_init (b_ "hello") false)
  /\ hash_world = Blob_get_hash (Blob_init (b_ "world") false)
  /\ hash_one = Blob_get_hash (Blob_init (b_ "one") false)
  /\ hash_two = Blob_get_hash (Blob_init (b_ "two") false)
  /\ hash_empty_tree = Tree_get_hash (P:=RefCodec.codec) (Tree_init false).
Proof. repeat split; vm_compute; reflexivity. Qed.

Lemma sha1_length (data : bytes) : length (sha1 data) = 20.
Proof. unfold sha1, SHA1.digest, SHA1.output. reflexivity. Qed.

Lemma sha1_separates_neq (x y : bytes) :
  x <> y -> sha1_separates x y -> sha1 x <> sha1 y.
Proof. intros Hxy Hsep E. apply Hxy, Hsep, E. Qed.

(** ** Equality tests decide equality *)

Lemma bytes_eqb_eq (a b : bytes) : bytes_eqb a b = true <-> a = b.
Proof.
  unfold bytes_eqb. destruct (bytes_eq_dec a b); split; congruence.
Qed.

Lemma cvs_class_eqb_eq (a b : cvs_class) : cvs_class_eqb a b = true <-> a = b.
Proof. destruct a, b; simpl; split; congruence. Qed.

Lemma TreeObjectData_eq_iff (a b : TreeObjectData) :
  TreeObjectData_eq a b = true <->
  path a = path b /\ object_type a = object_type b
  /\ TreeObjectData_is_removed a = TreeObjectData_is_removed b.
Proof.
  unfold TreeObjectData_eq.
  rewrite !andb_true_iff, String.eqb_eq, cvs_class_eqb_eq, Bool.eqb_true_iff.
  tauto.
Qed.

Lemma TreeObjectData_eq_eq (a b : TreeObjectData) :
  TreeObjectData_eq a b = true <-> a = b.
Proof.
  rewrite TreeObjectData_eq_iff. destruct a, b; simpl. split.
  - intros (-> & -> & ->). reflexivity.
  - intros E. injection E as -> -> ->. auto.
Qed.

Lemma TreeObjectData_eq_refl (a : TreeObjectData) : TreeObjectData_eq a a = true.
Proof. apply TreeObjectData_eq_eq. reflexivity. Qed.

Lemma TreeObjectData_eq_neq (a b : TreeObjectData) :
  a <> b -> TreeObjectData_eq a b = false.
Proof.
  intros N. destruct (TreeObjectData_eq a b) eqn:E; [|reflexivity].
  apply TreeObjectData_eq_eq in E. contradiction.
Qed.

Lemma TreeObjectData_eq_dec (a b : TreeObjectData) : {a = b} + {a <> b}.
Proof.
  destruct (TreeObjectData_eq a b) eqn:E.
  - left. apply TreeObjectData_eq_eq, E.
  - right. intros ->. rewrite TreeObjectData_eq_refl in E. discriminate.
Qed.

(** ** posixpath *)

Lemma rfind_sep_bounds (p : string) : (-1 <= rfind_sep p)%Z.
Proof.
  induction p as [|c r IH]; simpl; [lia|].
  destruct (0 <=? rfind_sep r)%Z eqn:E; [apply Z.leb_le in E; lia|].
  destruct (Ascii.eqb c sep); lia.
Qed.

Lemma rfind_sep_none (p : string) :
  (rfind_sep p = -1)%Z <-> has_sep p = false.
Proof.
  induction p as [|c r IH]; simpl; [tauto|].
  pose proof (rfind_sep_bounds r) as B.
  destruct (0 <=? rfind_sep r)%Z eqn:E.
  - apply Z.leb_le in E. split; [lia|].
    intros H. apply orb_false_iff in H as [_ H]. apply IH in H. lia.
  - apply Z.leb_gt in E. assert (R : rfind_sep r = (-1)%Z) by lia.
    apply IH in R. rewrite R, orb_false_r.
    destruct (Ascii.eqb c sep); split; (lia || congruence).
Qed.

(** [basename] cuts the path after its last separator. *)
Lemma basename_spec (p : string) :
  exists prefix : string,
    p = (prefix ++ basename p)%string
    /\ has_sep (basename p) = false
    /\ (prefix = EmptyString \/ endswith_sep prefix = true).
Proof.
  unfold basename. induction p as [|c r IH].
  - exists EmptyString. simpl. auto.
  - destruct IH as (pre & Hp & Hn & He). simpl rfind_sep.
    pose proof (rfind_sep_bounds r) as B.
    destruct (0 <=? rfind_sep r)%Z eqn:E.
    + apply Z.leb_le in E.
      replace (Z.to_nat (rfind_sep r + 1 + 1)) with (S (Z.to_nat (rfind_sep r + 1))) by lia.
      simpl slice_from. exists (String c pre). simpl. split; [congruence|].
      split; [exact Hn|]. right.
      destruct He as [-> | He].
      * exfalso. simpl in Hp.
        assert (R : has_sep r = false) by (rewrite Hp; exact Hn).
        apply rfind_sep_none in R. lia.
      * destruct pre; [discriminate He | exact He].
    + apply Z.leb_gt in E. assert (R : rfind_sep r = (-1)%Z) by lia.
      apply rfind_sep_none in R.
      destruct (Ascii.eqb c sep) eqn:Ec.
      * exists (String c EmptyString). simpl. rewrite Ec. auto.
      * exists EmptyString. simpl. rewrite Ec, R. auto.
Qed.

Lemma basename_trailing_sep (p : string) :
  basename (p ++ String sep EmptyString) = EmptyString.
Proof.
  unfold basename.
  assert (H : forall q, rfind_sep (q ++ String sep EmptyString)%string
                        = Z.of_nat (String.length q)).
  { induction q as [|c r IH]; [reflexivity|].
    cbn [String.append rfind_sep String.length]. rewrite IH.
    destruct (0 <=? Z.of_nat (String.length r))%Z eqn:E; [lia|].
    apply Z.leb_gt in E. lia. }
  rewrite H. replace (Z.to_nat (Z.of_nat (String.length p) + 1)) with (S (String.length p)) by lia.
  induction p as [|c r IH]; [reflexivity | exact IH].
Qed.

(** ** dict *)

Lemma dict_get_none (d : dict) (k : TreeObjectData) :
  dict_get d k = None <-> ~ In k (keys d).
Proof.
  induction d as [|[k' v'] rest IH]; simpl; [tauto|].
  destruct (TreeObjectData_eq k' k) eqn:E.
  - apply TreeObjectData_eq_eq in E. split; [discriminate | tauto].
  - rewrite IH. split; [|tauto].
    intros N [-> | H]; [|tauto]. rewrite TreeObjectData_eq_refl in E. discriminate.
Qed.

Lemma dict_get_in (d : dict) (k : TreeObjectData) (v : bytes) :
  dict_wf d -> In (k, v) d -> dict_get d k = Some v.
Proof.
  unfold dict_wf. induction d as [|[k' v'] rest IH]; simpl; [tauto|].
  intros W [E | H]; inversion W as [|? ? Hn Hw]; subst.
  - injection E as -> ->. rewrite TreeObjectData_eq_refl. reflexivity.
  - destruct (TreeObjectData_eq k' k) eqn:E; [|auto].
    apply TreeObjectData_eq_eq in E. subst k'.
    exfalso. apply Hn. change k with (fst (k, v)). apply in_map, H.
Qed.

Lemma dict_setitem_absent (d : dict) (k : TreeObjectData) (v : bytes) :
  dict_get d k = None -> dict_setitem d k v = d ++ [(k, v)].
Proof.
  induction d as [|[k' v'] rest IH]; simpl; [reflexivity|].
  destruct (TreeObjectData_eq k' k); [discriminate|].
  intros H. rewrite IH by exact H. reflexivity.
Qed.

Lemma dict_setitem_keys_present (d : dict) (k : TreeObjectData) (v : bytes) :
  dict_get d k <> None -> keys (dict_setitem d k v) = keys d.
Proof.
  induction d as [|[k' v'] rest IH]; simpl; [congruence|].
  destruct (TreeObjectData_eq k' k); [reflexivity|].
  intros H. simpl. rewrite IH by exact H. reflexivity.
Qed.

Lemma dict_setitem_keys (d : dict) (k : TreeObjectData) (v : bytes) :
  keys (dict_setitem d k v)
  = match dict_get d k with Some _ => keys d | None => keys d ++ [k] end.
Proof.
  destruct (dict_get d k) eqn:E.
  - apply dict_setitem_keys_present. congruence.
  - rewrite dict_setitem_absent by exact E. unfold keys. rewrite map_app. reflexivity.
Qed.

Lemma dict_get_setitem_same (d : dict) (k : TreeObjectData) (v : bytes) :
  dict_get (dict_setitem d k v) k = Some v.
Proof.
  induction d as [|[k' v'] rest IH]; simpl.
  - rewrite TreeObjectData_eq_refl. reflexivity.
  - destruct (TreeObjectData_eq k' k) eqn:E; simpl; rewrite E; auto.
Qed.

Lemma dict_get_setitem_other (d : dict) (k k' : TreeObjectData) (v : bytes) :
  k <> k' -> dict_get (dict_setitem d k v) k' = dict_get d k'.
Proof.
  intros N. induction d as [|[k0 v0] rest IH]; simpl.
  - rewrite TreeObjectData_eq_neq by exact N. reflexivity.
  - destruct (TreeObjectData_eq k0 k) eqn:E; simpl.
    + apply TreeObjectData_eq_eq in E. subst k0.
      rewrite TreeObjectData_eq_neq by exact N. reflexivity.
    + destruct (TreeObjectData_eq k0 k'); auto.
Qed.

Lemma dict_setitem_wf (d : dict) (k : TreeObjectData) (v : bytes) :
  dict_wf d -> dict_wf (dict_setitem d k v).
Proof.
  unfold dict_wf. intros W. rewrite dict_setitem_keys.
  destruct (dict_get d k) eqn:E; [exact W|].
  apply dict_get_none in E.
  apply NoDup_app; [exact W | constructor; [simpl; tauto | constructor] |].
  intros x Hx [<- | []]. exact (E Hx).
Qed.

(** In a well-formed dict a key that is present has one entry. *)
Lemma dict_entries_of_key (d : dict) (k : TreeObjectData) (v : bytes) :
  dict_wf d -> dict_get d k = Some v ->
  filter (fun kv => TreeObjectData_eq (fst kv) k) d = [(k, v)].
Proof.
  unfold dict_wf. induction d as [|[k' v'] rest IH]; simpl; [discriminate|].
  intros W H. inversion W as [|? ? Hn Hw]; subst.
  destruct (TreeObjectData_eq k' k) eqn:E.
  - apply TreeObjectData_eq_eq in E. subst k'. injection H as ->. f_equal.
    apply dict_get_none in Hn. clear -Hn.
    induction rest as [|[k0 v0] r IH]; simpl in *; [reflexivity|].
    destruct (TreeObjectData_eq k0 k); [discriminate | auto].
  - auto.
Qed.


Lemma add_objects_fresh (entries : list (TreeObjectData * bytes)) (t : Tree) :
  NoDup (keys (children t) ++ keys entries) ->
  add_objects t entries
  = {| children := children t ++ entries; Tree_is_removed := Tree_is_removed t |}.
Proof.
  unfold add_objects. revert t.
  induction entries as [|[k v] rest IH]; intros [d r] W; simpl in *.
  - rewrite app_nil_r. reflexivity.
  - rewrite IH; simpl.
    + rewrite dict_setitem_absent, <- app_assoc; [reflexivity|].
      apply dict_get_none. intros H. apply NoDup_remove_2 in W.
      apply W, in_or_app. auto.
    + rewrite dict_setitem_absent.
      * unfold keys in *. rewrite map_app, <- app_assoc. exact W.
      * apply dict_get_none. intros H. apply NoDup_remove_2 in W.
        apply W, in_or_app. auto.
Qed.

Lemma dict_eq_permutation (d1 d2 : dict) :
  dict_wf d1 -> Permutation d1 d2 -> dict_eq d1 d2 = true.
Proof.
  intros W P. unfold dict_eq. apply andb_true_iff. split.
  - apply Nat.eqb_eq, Permutation_length, P.
  - apply forallb_forall. intros [k v] H. simpl.
    rewrite (@dict_get_in d2 k v).
    + apply bytes_eqb_eq. reflexivity.
    + unfold dict_wf, keys in *. eapply Permutation_NoDup; [|exact W].
      apply Permutation_map, P.
    + eapply Permutation_in; eauto.
Qed.

(** ** pickle: what the contract gives, and the reference codec meets it *)

Lemma pickle_dumps_injective (P : Pickle) :
  pickle_roundtrip P ->
  forall o1 o2 : CVSObject, pickle_dumps o1 = pickle_dumps o2 -> o1 = o2.
Proof.
  intros R o1 o2 E.
  assert (H : Some o1 = Some o2) by (rewrite <- (R o1), <- (R o2), E; reflexivity).
  injection H as ->. reflexivity.
Qed.

Lemma Tree_serialize_injective (P : Pickle) :
  pickle_roundtrip P ->
  forall t1 t2 : Tree, Tree_serialize t1 = Tree_serialize t2 -> t1 = t2.
Proof.
  intros R t1 t2 E. apply (pickle_dumps_injective R) in E. congruence.
Qed.

(** Trees that differ have different hashes, unless SHA-1 collides on
    their serialized forms. *)
Lemma Tree_get_hash_separates (P : Pickle) (t1 t2 : Tree) :
  pickle_roundtrip P -> t1 <> t2 ->
  Tree_serialize t1 <> Tree_serialize t2
  /\ (sha1_separates (Tree_serialize t1) (Tree_serialize t2) ->
      Tree_get_hash t1 <> Tree_get_hash t2).
Proof.
  intros R N.
  assert (S : Tree_serialize t1 <> Tree_serialize t2).
  { intros E. apply N, (Tree_serialize_injective R), E. }
  split; [exact S|]. intros Hsep. apply sha1_separates_neq; assumption.
Qed.

Module RefCodecFacts.
Import RefCodec.

Lemma dec_bool_enc (b : bool) (rest : bytes) :
  dec_bool (enc_bool b ++ rest) = Some (b, rest).
Proof. destruct b; reflexivity. Qed.

Lemma dec_class_enc (c : cvs_class) (rest : bytes) :
  dec_class (enc_class c ++ rest) = Some (c, rest).
Proof. destruct c; reflexivity. Qed.

Lemma dec_bytes_enc (l rest : bytes) :
  dec_bytes (enc_bytes l ++ rest) = Some (l, rest).
Proof.
  induction l as [|b r IH]; [reflexivity|].
  cbn [enc_bytes app dec_bytes]. rewrite IH. reflexivity.
Qed.

Lemma dec_str_enc (s : string) (rest : bytes) :
  dec_str (enc_str s ++ rest) = Some (s, rest).
Proof.
  unfold dec_str, enc_str. rewrite dec_bytes_enc, string_of_list_byte_of_string.
  reflexivity.
Qed.

Lemma dec_data_enc (d : TreeObjectData) (rest : bytes) :
  dec_data (enc_data d ++ rest) = Some (d, rest).
Proof.
  unfold dec_data, enc_data. rewrite <- !app_assoc.
  rewrite dec_str_enc, dec_class_enc, dec_bool_enc. destruct d; reflexivity.
Qed.

Lemma dec_dict_enc (d : dict) (rest : bytes) (fuel : nat) :
  length d < fuel -> dec_dict fuel (enc_dict d ++ rest) = Some (d, rest).
Proof.
  revert fuel. induction d as [|[k v] r IH]; intros [|fuel] L; simpl in L; try lia.
  - reflexivity.
  - cbn [enc_dict app dec_dict]. rewrite <- !app_assoc.
    rewrite dec_data_enc, dec_bytes_enc, IH by lia. reflexivity.
Qed.

Lemma enc_dict_length (d : dict) : length d < length (enc_dict d).
Proof.
  induction d as [|[k v] r IH]; simpl; [lia|]. rewrite !length_app. lia.
Qed.

Lemma dec_tree_enc (t : Tree) (rest : bytes) :
  dec_tree (enc_tree t ++ rest) = Some (t, rest).
Proof.
  unfold dec_tree, enc_tree. rewrite <- app_assoc.
  rewrite dec_dict_enc.
  - rewrite dec_bool_enc. destruct t; reflexivity.
  - rewrite length_app. pose proof (enc_dict_length (children t)). lia.
Qed.

Lemma dec_blob_enc (b : Blob) (rest : bytes) :
  dec_blob (enc_blob b ++ rest) = Some (b, rest).
Proof.
  unfold dec_blob, enc_blob. rewrite <- app_assoc.
  rewrite dec_bytes_enc, dec_bool_enc. destruct b; reflexivity.
Qed.

Lemma dec_commit_enc (c : Commit) (rest : bytes) :
  dec_commit (enc_commit c ++ rest) = Some (c, rest).
Proof.
  unfold dec_commit, enc_commit. rewrite <- !app_assoc.
  rewrite dec_tree_enc, dec_bytes_enc, dec_str_enc. destruct c; reflexivity.
Qed.

Lemma codec_roundtrip : pickle_roundtrip codec.
Proof.
  intros [b | t | c]; cbn [codec pickle_loads pickle_dumps dumps loads].
  - rewrite <- (app_nil_r (enc_blob b)), dec_blob_enc. reflexivity.
  - rewrite <- (app_nil_r (enc_tree t)), dec_tree_enc. reflexivity.
  - rewrite <- (app_nil_r (enc_commit c)), dec_commit_enc. reflexivity.
Qed.

End RefCodecFacts.

(** ** The store *)

Lemma store_get_set_same (st : Store) (a : nat) (o : CVSObject) :
  a < length st -> store_get (store_set st a o) a = Some o.
Proof.
  unfold store_get. revert a.
  induction st as [|x r IH]; intros [|a] L; simpl in *; try lia; auto.
  apply IH. lia.
Qed.

Lemma store_get_set_other (st : Store) (a a' : nat) (o : CVSObject) :
  a <> a' -> store_get (store_set st a o) a' = store_get st a'.
Proof.
  unfold store_get. revert a a'.
  induction st as [|x r IH]; intros [|a] [|a'] N; simpl; try reflexivity; try lia.
  apply IH. lia.
Qed.

Lemma store_get_new_old (st : Store) (o : CVSObject) (a : nat) :
  a < length st -> store_get (fst (store_new st o)) a = store_get st a.
Proof. intros L. unfold store_get, store_new. simpl. apply nth_error_app1, L. Qed.

Lemma store_get_new (st : Store) (o : CVSObject) :
  store_get (fst (store_new st o)) (snd (store_new st o)) = Some o.
Proof.
  unfold store_get, store_new. simpl.
  rewrite nth_error_app2, Nat.sub_diag by lia. reflexivity.
Qed.

Lemma store_get_bound (st : Store) (a : nat) (o : CVSObject) :
  store_get st a = Some o -> a < length st.
Proof. intros H. apply nth_error_Some. unfold store_get in H. congruence. Qed.

(* ===================================================================== *)
(** * The claims *)

(** C1.  The hash of a Blob is the SHA-1 digest of the header [b'blob #\0']
    followed by the content, whatever the removal flag is; and after a
    tombstone entry has been added to a Tree, a Blob held elsewhere in
    memory is as it was and still hashes to that digest. *)
Theorem Blob_get_hash_content_only (P : Pickle) (c : bytes) (r1 r2 : bool) :
  Blob_get_hash (Blob_init c r1) = Blob_get_hash (Blob_init c r2)
  /\ Blob_get_hash (Blob_init c r1) = sha1 (b_ "blob #" ++ [x00] ++ c)
  /\ forall (st : Store) (a_blob a_tree : nat) (t : Tree) (p : string) (h : bytes),
       store_get st a_blob = Some (A_Blob (Blob_init c r1)) ->
       store_get st a_tree = Some (A_Tree t) ->
       exists st' : Store,
         call_add_object st a_tree (tombstone p) h = Some st'
         /\ store_get st' a_tree = Some (A_Tree (Tree_add_object t (tombstone p) h))
         /\ store_get st' a_blob = Some (A_Blob (Blob_init c r1))
         /\ call_get_hash st' a_blob = Some (st', sha1 (b_ "blob #" ++ [x00] ++ c)).
Proof.
  assert (Hh : forall r, Blob_get_hash (Blob_init c r) = sha1 (b_ "blob #" ++ [x00] ++ c)).
  { intros r. unfold Blob_get_hash, Blob_header. simpl content.
    rewrite <- app_assoc. reflexivity. }
  split; [rewrite !Hh; reflexivity|]. split; [apply Hh|].
  intros st a_blob a_tree t p h Hb Ht.
  unfold call_add_object. rewrite Ht. eexists. split; [reflexivity|].
  assert (N : a_tree <> a_blob) by (intros ->; congruence).
  assert (G : store_get (store_set st a_tree (A_Tree (Tree_add_object t (tombstone p) h))) a_blob
              = Some (A_Blob (Blob_init c r1))).
  { rewrite store_get_set_other by exact N. exact Hb. }
  split; [apply store_get_set_same, (store_get_bound _ _ Ht)|].
  split; [exact G|].
  unfold call_get_hash. rewrite G. simpl get_hash. rewrite Hh. reflexivity.
Qed.

Lemma Blob_get_hash_content_only_witness :
  let st := [A_Blob (Blob_init (b_ "hello") false); A_Tree (Tree_init false)] in
  let st' := [A_Blob (Blob_init (b_ "hello") false);
              A_Tree (Tree_add_object (Tree_init false) (tombstone "a.txt") hash_hello)] in
  (store_get st 0 = Some (A_Blob (Blob_init (b_ "hello") false))
   /\ store_get st 1 = Some (A_Tree (Tree_init false)))
  /\ call_add_object st 1 (tombstone "a.txt") hash_hello = Some st'
  /\ call_get_hash (P:=RefCodec.codec) st' 0
     = Some (st', sha1 (b_ "blob #" ++ [x00] ++ b_ "hello")).
Proof.
  intros st st'.
  split; [split; reflexivity|]. split; [reflexivity|].
  destruct (proj2 (proj2 (Blob_get_hash_content_only RefCodec.codec (b_ "hello") false true))
              st 0 1 (Tree_init false) "a.txt"%string hash_hello eq_refl eq_refl)
    as (st0 & Hcall & _ & _ & Hhash).
  assert (E : st0 = st').
  { unfold call_add_object in Hcall. simpl in Hcall. injection Hcall as <-. reflexivity. }
  rewrite E in Hhash. exact Hhash.
Defined.

(** C10.  [get_hash()] returns 20 bytes, writes nothing, and a second call
    on the same object returns the same bytes. *)
Theorem get_hash_deterministic (P : Pickle) (st : Store) (a : nat) (o : CVSObject) :
  store_get st a = Some o ->
  exists h : bytes,
    length h = 20
    /\ h = get_hash o
    /\ call_get_hash st a = Some (st, h)
    /\ forall (st1 : Store) (h1 : bytes),
         call_get_hash st a = Some (st1, h1) ->
         call_get_hash st1 a = Some (st1, h1).
Proof.
  intros Ho. exists (get_hash o). unfold call_get_hash. rewrite Ho.
  split; [|split; [reflexivity|split; [reflexivity|]]].
  - destruct o as [b | t | c]; apply sha1_length.
  - intros st1 h1 E. injection E as <- <-. rewrite Ho. reflexivity.
Qed.

Lemma get_hash_deterministic_witness :
  let t := Tree_add_object (Tree_init false) (tombstone "a.txt") [] in
  let st := [A_Blob (Blob_init (b_ "hello") false); A_Tree t;
             A_Commit (Commit_init t "first")] in
  store_get st 2 = Some (A_Commit (Commit_init t "first"))
  /\ exists h : bytes,
       length h = 20
       /\ h = get_hash (P:=RefCodec.codec) (A_Commit (Commit_init t "first"))
       /\ call_get_hash (P:=RefCodec.codec) st 2 = Some (st, h)
       /\ forall (st1 : Store) (h1 : bytes),
            call_get_hash (P:=RefCodec.codec) st 2 = Some (st1, h1) ->
            call_get_hash (P:=RefCodec.codec) st1 2 = Some (st1, h1).
Proof.
  intros t st. split; [reflexivity|].
  apply (@get_hash_deterministic RefCodec.codec st 2). reflexivity.
Defined.

(** ** Commit chaining *)

Lemma app_eq_same_length (A : Type) (a b c d : list A) :
  length a = length b -> a ++ c = b ++ d -> a = b /\ c = d.
Proof.
  revert b. induction a as [|x a IH]; intros [|y b] L E; simpl in *; try discriminate.
  - auto.
  - injection E as -> E. injection L as L. destruct (IH b L E) as [-> ->]. auto.
Qed.

(** A Commit made by the constructor is not its own parent. *)
Lemma Commit_init_not_own_parent (P : Pickle) (t : Tree) (m : string) :
  parent_commit_hash (Commit_init t m) <> Commit_get_hash (Commit_init t m).
Proof.
  intros E. apply (f_equal (@length byte)) in E.
  unfold Commit_get_hash in E. rewrite sha1_length in E. discriminate.
Qed.

(** Two Commits whose hash inputs are equal have the same parent hash. *)
Lemma Commit_preimage_parent (P : Pickle) (c p : Commit) :
  Commit_header ++ Tree_get_hash (tree c) ++ parent_commit_hash c
  = Commit_header ++ Tree_get_hash (tree p) ++ parent_commit_hash p ->
  parent_commit_hash c = parent_commit_hash p.
Proof.
  intros E. apply app_inv_head in E.
  apply app_eq_same_length in E; [tauto|].
  unfold Tree_get_hash. rewrite !sha1_length. reflexivity.
Qed.

(** C4.  [p.derive_commit(t, m)] returns a Commit with tree [t], message
    [m] and the hash of [p] as parent hash.  In memory the new Commit is a
    fresh object and every object that was there before, [p] included, is
    as it was.  The new Commit's hash differs from the hash of [p], for a
    [p] that is not its own parent and as long as SHA-1 does not collide
    on the two hash inputs. *)
Theorem derive_commit_spec (P : Pickle) (p : Commit) (t : Tree) (m : string) :
  let c := Commit_derive_commit p t m in
  tree c = t
  /\ message c = m
  /\ parent_commit_hash c = Commit_get_hash p
  /\ (forall (st : Store) (a : nat),
        store_get st a = Some (A_Commit p) ->
        exists st' : Store,
          call_derive_commit st a t m = Some (st', length st)
          /\ store_get st' (length st) = Some (A_Commit c)
          /\ store_get st' a = Some (A_Commit p)
          /\ forall b : nat, b < length st -> store_get st' b = store_get st b)
  /\ (parent_commit_hash p <> Commit_get_hash p ->
      sha1_separates
        (b_ "commit #" ++ [x00] ++ Tree_get_hash (tree c) ++ parent_commit_hash c)
        (b_ "commit #" ++ [x00] ++ Tree_get_hash (tree p) ++ parent_commit_hash p) ->
      Commit_get_hash c <> Commit_get_hash p).
Proof.
  intros c. split; [reflexivity|]. split; [reflexivity|]. split; [reflexivity|]. split.
  - intros st a Hp. unfold call_derive_commit. rewrite Hp.
    pose proof (store_get_new st (A_Commit (Commit_init t m))) as Hn.
    pose proof (store_get_bound _ _ Hp) as La.
    unfold store_new in *. simpl fst in Hn. simpl snd in Hn. rewrite Hn.
    eexists. split; [reflexivity|].
    assert (F : forall b, b < length st ->
                store_get (store_set (st ++ [A_Commit (Commit_init t m)]) (length st)
                             (A_Commit (set_parent_commit_hash (Commit_init t m)
                                          (Commit_get_hash p)))) b
                = store_get st b).
    { intros b Lb. rewrite store_get_set_other by lia.
      apply (store_get_new_old st (A_Commit (Commit_init t m)) Lb). }
    split; [|split; [rewrite F by exact La; exact Hp | exact F]].
    apply store_get_set_same. rewrite length_app. simpl. lia.
  - intros Hown Hsep E.
    assert (Hpre : forall k : Commit,
               Commit_get_hash k
               = sha1 (b_ "commit #" ++ [x00] ++ Tree_get_hash (tree k)
                       ++ parent_commit_hash k)).
    { intros k. unfold Commit_get_hash, Commit_header.
      rewrite <- app_assoc. reflexivity. }
    rewrite (Hpre c), (Hpre p) in E. apply Hsep in E.
    change (b_ "commit #" ++ [x00] ++ Tree_get_hash (tree c) ++ parent_commit_hash c)
      with ((b_ "commit #" ++ [x00]) ++ Tree_get_hash (tree c) ++ parent_commit_hash c) in E.
    change (b_ "commit #" ++ [x00] ++ Tree_get_hash (tree p) ++ parent_commit_hash p)
      with ((b_ "commit #" ++ [x00]) ++ Tree_get_hash (tree p) ++ parent_commit_hash p) in E.
    apply (@Commit_preimage_parent P c p) in E.
    apply Hown. rewrite <- E. reflexivity.
Qed.

(** No Commit of such a history is its own parent. *)
Lemma chained_not_own_parent (P : Pickle) (p : Commit) :
  chained P p -> parent_commit_hash p <> Commit_get_hash p.
Proof.
  induction 1 as [t m | p t m Hp IH Hsep].
  - apply Commit_init_not_own_parent.
  - intros E. simpl parent_commit_hash in E.
    unfold Commit_get_hash at 1 2 in E. apply eq_sym, Hsep in E.
    apply (@Commit_preimage_parent P) in E. simpl parent_commit_hash in E.
    apply IH. symmetry. exact E.
Qed.

Lemma derive_commit_spec_witness :
  let p := Commit_derive_commit (P:=RefCodec.codec)
             (Commit_init (Tree_init false) "first") (Tree_init false) "second" in
  let t := Tree_add_object (Tree_init false)
             (TreeObjectData_init "a.txt" Blob_class)
             (Blob_get_hash (Blob_init (b_ "hello") false)) in
  let c := Commit_derive_commit (P:=RefCodec.codec) p t "third" in
  (store_get [A_Commit p] 0 = Some (A_Commit p)
   /\ parent_commit_hash p <> Commit_get_hash (P:=RefCodec.codec) p
   /\ sha1_separates
        (b_ "commit #" ++ [x00] ++ Tree_get_hash (P:=RefCodec.codec) (tree c)
         ++ parent_commit_hash c)
        (b_ "commit #" ++ [x00] ++ Tree_get_hash (P:=RefCodec.codec) (tree p)
         ++ parent_commit_hash p))
  /\ Commit_get_hash (P:=RefCodec.codec) c <> Commit_get_hash (P:=RefCodec.codec) p
  /\ exists st' : Store,
       call_derive_commit (P:=RefCodec.codec) [A_Commit p] 0 t "third" = Some (st', 1)
       /\ store_get st' 1 = Some (A_Commit c)
       /\ store_get st' 0 = Some (A_Commit p)
       /\ forall b : nat, b < 1 -> store_get st' b = store_get [A_Commit p] b.
Proof.
  intros p t c.
  assert (H1 : store_get [A_Commit p] 0 = Some (A_Commit p)) by reflexivity.
  assert (H2 : parent_commit_hash p <> Commit_get_hash (P:=RefCodec.codec) p).
  { intros E. vm_compute in E. discriminate E. }
  assert (H3 : sha1_separates
        (b_ "commit #" ++ [x00] ++ Tree_get_hash (P:=RefCodec.codec) (tree c)
         ++ parent_commit_hash c)
        (b_ "commit #" ++ [x00] ++ Tree_get_hash (P:=RefCodec.codec) (tree p)
         ++ parent_commit_hash p)).
  { intros E. vm_compute in E. discriminate E. }
  split; [auto|].
  destruct (derive_commit_spec RefCodec.codec p t "third") as (_ & _ & _ & Hst & Hneq).
  split; [exact (Hneq H2 H3)|]. exact (Hst [A_Commit p] 0 H1).
Defined.

(** ** Insertion order *)

Lemma add_objects_keys (entries : list (TreeObjectData * bytes)) (t : Tree) :
  exists suffix : list TreeObjectData,
    keys (children (add_objects t entries)) = keys (children t) ++ suffix.
Proof.
  unfold add_objects. revert t.
  induction entries as [|[k v] rest IH]; intros t; simpl.
  - exists []. rewrite app_nil_r. reflexivity.
  - destruct (IH (Tree_add_object t k v)) as [s Hs]. rewrite Hs. simpl children.
    rewrite dict_setitem_keys. destruct (dict_get (children t) k).
    + exists s. reflexivity.
    + exists (k :: s). rewrite <- app_assoc. reflexivity.
Qed.

Lemma add_objects_wf (entries : list (TreeObjectData * bytes)) (t : Tree) :
  dict_wf (children t) -> dict_wf (children (add_objects t entries)).
Proof.
  unfold add_objects. revert t.
  induction entries as [|[k v] rest IH]; intros t W; simpl; [exact W|].
  apply IH. simpl. apply dict_setitem_wf, W.
Qed.

Lemma add_objects_is_removed (entries : list (TreeObjectData * bytes)) (t : Tree) :
  Tree_is_removed (add_objects t entries) = Tree_is_removed t.
Proof.
  unfold add_objects. revert t.
  induction entries as [|[k v] rest IH]; intros t; simpl; [reflexivity|].
  rewrite IH. reflexivity.
Qed.





(** C6.  After [add_object(data, h1)] and, any number of insertions later,
    [add_object(data, h2)], the Tree has one entry for [data], mapped to
    [h2].  The keys the Tree had keep their places, new keys come after
    them, and the second insertion of [data] moves nothing.  A Tree with
    the same entries in another order serializes differently, and hashes
    differently unless SHA-1 collides on the two serialized forms. *)
Theorem add_object_last_wins (P : Pickle) (t : Tree) (data : TreeObjectData)
    (h1 h2 : bytes) (between : list (TreeObjectData * bytes)) :
  dict_wf (children t) ->
  let t1 := add_objects (Tree_add_object t data h1) between in
  let t2 := Tree_add_object t1 data h2 in
  filter (fun kv => TreeObjectData_eq (fst kv) data) (children t2) = [(data, h2)]
  /\ dict_get (children t2) data = Some h2
  /\ keys (children t2) = keys (children t1)
  /\ (exists suffix : list TreeObjectData,
        keys (children t2) = keys (children t) ++ suffix)
  /\ forall u : Tree,
       pickle_roundtrip P ->
       Permutation (children t2) (children u) ->
       children t2 <> children u ->
       Tree_serialize t2 <> Tree_serialize u
       /\ (sha1_separates (Tree_serialize t2) (Tree_serialize u) ->
           Tree_get_hash t2 <> Tree_get_hash u).
Proof.
  intros W t1 t2.
  assert (G : dict_get (children t2) data = Some h2) by apply dict_get_setitem_same.
  assert (W2 : dict_wf (children t2)).
  { apply dict_setitem_wf, add_objects_wf. simpl. apply dict_setitem_wf, W. }
  assert (K : keys (children t2) = keys (children t1)).
  { apply dict_setitem_keys_present.
    destruct (add_objects_keys between (Tree_add_object t data h1)) as [s Hs].
    fold t1 in Hs. intros N. apply dict_get_none in N. apply N. rewrite Hs.
    apply in_or_app. left. simpl children.
    assert (D : dict_get (dict_setitem (children t) data h1) data <> None)
      by (rewrite dict_get_setitem_same; discriminate).
    destruct (in_dec TreeObjectData_eq_dec data
                (keys (dict_setitem (children t) data h1))) as [I | I]; [exact I|].
    apply dict_get_none in I. contradiction. }
  split; [apply dict_entries_of_key; assumption|].
  split; [exact G|]. split; [exact K|]. split.
  - rewrite K. destruct (add_objects_keys between (Tree_add_object t data h1)) as [s Hs].
    fold t1 in Hs. rewrite Hs. simpl children. rewrite dict_setitem_keys.
    destruct (dict_get (children t) data).
    + exists s. reflexivity.
    + exists (data :: s). rewrite <- app_assoc. reflexivity.
  - intros u R _ N. apply (Tree_get_hash_separates R). congruence.
Qed.

Lemma add_object_last_wins_witness :
  let a := TreeObjectData_init "a.txt" Blob_class in
  let b := TreeObjectData_init "b.txt" Blob_class in
  let c := TreeObjectData_init "c.txt" Blob_class in
  let t := Tree_add_object (Tree_init false) a hash_hello in
  let t2 := Tree_add_object (add_objects (Tree_add_object t b hash_one) [(c, hash_hello)])
              b hash_two in
  let u := {| children := [(c, hash_hello); (b, hash_two); (a, hash_hello)];
              Tree_is_removed := false |} in
  (dict_wf (children t)
   /\ pickle_roundtrip RefCodec.codec
   /\ Permutation (children t2) (children u)
   /\ children t2 <> children u
   /\ sha1_separates (Tree_serialize (P:=RefCodec.codec) t2)
                     (Tree_serialize (P:=RefCodec.codec) u))
  /\ children t2 = [(a, hash_hello); (b, hash_two); (c, hash_hello)]
  /\ filter (fun kv => TreeObjectData_eq (fst kv) b) (children t2) = [(b, hash_two)]
  /\ Tree_get_hash (P:=RefCodec.codec) t2 <> Tree_get_hash (P:=RefCodec.codec) u.
Proof.
  intros a b c t t2 u.
  assert (C2 : children t2 = [(a, hash_hello); (b, hash_two); (c, hash_hello)])
    by (vm_compute; reflexivity).
  assert (W : dict_wf (children t)).
  { unfold dict_wf. simpl. repeat constructor. simpl. tauto. }
  assert (Pm : Permutation (children t2) (children u)).
  { rewrite C2. simpl children.
    apply (Permutation_rev [(a, hash_hello); (b, hash_two); (c, hash_hello)]). }
  assert (N : children t2 <> children u).
  { rewrite C2. simpl children. intros E. injection E as E _. discriminate E. }
  assert (S : sha1_separates (Tree_serialize (P:=RefCodec.codec) t2)
                             (Tree_serialize (P:=RefCodec.codec) u)).
  { intros E. vm_compute in E. discriminate E. }
  split; [exact (conj W (conj RefCodecFacts.codec_roundtrip (conj Pm (conj N S))))|].
  split; [exact C2|].
  destruct (@add_object_last_wins RefCodec.codec t b hash_one hash_two
              [(c, hash_hello)] W) as (F & _ & _ & _ & Hu).
  split; [exact F|].
  exact (proj2 (Hu u RefCodecFacts.codec_roundtrip Pm N) S).
Defined.
(** C7.  Two Trees built from the same entries in two orders, with the
    same removal flag, are equal under [==].  When the orders differ the
    serialized forms differ, and so do the hashes unless SHA-1 collides on
    them: equal Trees need not have equal hashes. *)
Theorem Tree_eq_ignores_order (P : Pickle) (l1 l2 : list (TreeObjectData * bytes))
    (is_removed : bool) :
  NoDup (keys l1) ->
  Permutation l1 l2 ->
  let t1 := add_objects (Tree_init is_removed) l1 in
  let t2 := add_objects (Tree_init is_removed) l2 in
  Tree_eq t1 t2 = true
  /\ (pickle_roundtrip P -> l1 <> l2 ->
      Tree_serialize t1 <> Tree_serialize t2
      /\ (sha1_separates (Tree_serialize t1) (Tree_serialize t2) ->
          Tree_get_hash t1 <> Tree_get_hash t2)).
Proof.
  intros W Pm t1 t2.
  assert (W2 : NoDup (keys l2)).
  { unfold keys. eapply Permutation_NoDup; [apply Permutation_map, Pm | exact W]. }
  assert (E1 : t1 = {| children := l1; Tree_is_removed := is_removed |}).
  { subst t1. rewrite add_objects_fresh; [reflexivity | exact W]. }
  assert (E2 : t2 = {| children := l2; Tree_is_removed := is_removed |}).
  { subst t2. rewrite add_objects_fresh; [reflexivity | exact W2]. }
  split.
  - rewrite E1, E2. unfold Tree_eq. simpl.
    rewrite dict_eq_permutation by assumption. rewrite Bool.eqb_reflx. reflexivity.
  - intros R N. apply (Tree_get_hash_separates R).
    rewrite E1, E2. congruence.
Qed.

Lemma Tree_eq_ignores_order_witness :
  let a := TreeObjectData_init "a.txt" Blob_class in
  let s := TreeObjectData_init "sub/" Tree_class in
  let l1 := [(a, hash_hello); (s, hash_empty_tree)] in
  let l2 := [(s, hash_empty_tree); (a, hash_hello)] in
  let t1 := add_objects (Tree_init false) l1 in
  let t2 := add_objects (Tree_init false) l2 in
  (NoDup (keys l1)
   /\ Permutation l1 l2
   /\ pickle_roundtrip RefCodec.codec
   /\ l1 <> l2
   /\ sha1_separates (Tree_serialize (P:=RefCodec.codec) t1)
                     (Tree_serialize (P:=RefCodec.codec) t2))
  /\ Tree_eq t1 t2 = true
  /\ Tree_get_hash (P:=RefCodec.codec) t1 <> Tree_get_hash (P:=RefCodec.codec) t2.
Proof.
  intros a s l1 l2 t1 t2.
  assert (W : NoDup (keys l1)).
  { simpl. repeat constructor; simpl; [|tauto]. intros [E | []]. discriminate E. }
  assert (Pm : Permutation l1 l2) by apply perm_swap.
  assert (N : l1 <> l2).
  { intros E. injection E as E _. discriminate E. }
  assert (S : sha1_separates (Tree_serialize (P:=RefCodec.codec) t1)
                             (Tree_serialize (P:=RefCodec.codec) t2)).
  { intros E. vm_compute in E. discriminate E. }
  split; [exact (conj W (conj Pm (conj RefCodecFacts.codec_roundtrip (conj N S))))|].
  destruct (@Tree_eq_ignores_order RefCodec.codec l1 l2 false W Pm) as [Heq Hh].
  split; [exact Heq|].
  exact (proj2 (Hh RefCodecFacts.codec_roundtrip N) S).
Defined.

(** ** The directory materializer *)

(** C3.  For a directory holding the file [a.txt] with the bytes
    [b"hello"] and the empty directory [sub], in either listing order,
    [initialize_from_directory] returns a Tree with two entries: the path
    of [a.txt], of class Blob, with the hash of [Blob(b"hello")], and the
    path of [sub] with a closing separator, of class Tree, with the hash
    of the empty Tree. *)
Theorem initialize_from_directory_scenario (P : Pickle) (directory : string) :
  let a_txt := (TreeObjectData_init (join directory "a.txt") Blob_class,
                Blob_get_hash (Blob_init (b_ "hello") false)) in
  let sub := (TreeObjectData_init (join (join directory "sub") "") Tree_class,
              Tree_get_hash (Tree_init false)) in
  Tree_initialize_from_directory
    (Dir [("a.txt"%string, File (b_ "hello")); ("sub"%string, Dir [])]) directory
  = Some {| children := [a_txt; sub]; Tree_is_removed := false |}
  /\ Tree_initialize_from_directory
       (Dir [("sub"%string, Dir []); ("a.txt"%string, File (b_ "hello"))]) directory
     = Some {| children := [sub; a_txt]; Tree_is_removed := false |}.
Proof.
  intros a_txt sub. subst a_txt sub.
  split; cbn [Tree_initialize_from_directory];
    unfold Tree_add_object, Tree_init; cbn [children Tree_is_removed dict_setitem];
    unfold TreeObjectData_eq, TreeObjectData_init;
    cbn [object_type cvs_class_eqb];
    rewrite ?andb_false_r; reflexivity.
Qed.


(** ** Round trips *)



(** ** Equality *)

(** C8.  [name] is the final component of [path] as [os.path.basename]
    has it: what follows the last separator (the empty string for a path
    that ends in one).  Two TreeObjectData are equal exactly when their
    three fields are, and two with the same name can be different. *)
Theorem TreeObjectData_name_and_eq (d d' : TreeObjectData) :
  name d = basename (path d)
  /\ (exists prefix : string,
        path d = (prefix ++ name d)%string
        /\ has_sep (name d) = false
        /\ (prefix = EmptyString \/ endswith_sep prefix = true))
  /\ (TreeObjectData_eq d d' = true <->
      path d = path d' /\ object_type d = object_type d'
      /\ TreeObjectData_is_removed d = TreeObjectData_is_removed d')
  /\ (TreeObjectData_eq d d' = true <-> d = d')
  /\ (name (TreeObjectData_init "a/x" Blob_class) = name (TreeObjectData_init "b/x" Blob_class)
      /\ TreeObjectData_eq (TreeObjectData_init "a/x" Blob_class)
                           (TreeObjectData_init "b/x" Blob_class) = false)
  /\ (name (TreeObjectData_init "repo/a.txt" Blob_class) = "a.txt"%string
      /\ name (TreeObjectData_init "repo/sub/" Tree_class) = EmptyString).
Proof.
  split; [reflexivity|]. split; [apply basename_spec|].
  split; [apply TreeObjectData_eq_iff|]. split; [apply TreeObjectData_eq_eq|].
  split; split; reflexivity.
Qed.

Lemma Tree_eq_iff (t1 t2 : Tree) :
  Tree_eq t1 t2 = true <->
  dict_eq (children t1) (children t2) = true
  /\ Tree_is_removed t1 = Tree_is_removed t2.
Proof. unfold Tree_eq. rewrite andb_true_iff, Bool.eqb_true_iff. tauto. Qed.

Lemma Tree_eq_refl (t : Tree) : dict_wf (children t) -> Tree_eq t t = true.
Proof.
  intros W. apply Tree_eq_iff. split; [|reflexivity].
  apply dict_eq_permutation; [exact W | apply Permutation_refl].
Qed.

(** C9.  [c1 == c2] holds exactly when the trees are equal ([==] of Tree),
    the messages are equal and the parent hashes are equal.  No hash of a
    Commit enters: two Commits with different messages are unequal although
    their hashes are the same. *)
Theorem Commit_eq_structural (P : Pickle) (c1 c2 : Commit) :
  (Commit_eq c1 c2 = true <->
   Tree_eq (tree c1) (tree c2) = true
   /\ message c1 = message c2
   /\ parent_commit_hash c1 = parent_commit_hash c2)
  /\ (Commit_get_hash (Commit_init (tree c1) "a") = Commit_get_hash (Commit_init (tree c1) "b")
      /\ Commit_eq (Commit_init (tree c1) "a") (Commit_init (tree c1) "b") = false).
Proof.
  split.
  - unfold Commit_eq.
    rewrite !andb_true_iff, String.eqb_eq, bytes_eqb_eq. tauto.
  - split; [reflexivity|]. unfold Commit_eq. simpl.
    rewrite andb_false_r. reflexivity.
Qed.

(* ===================================================================== *)
(** * Further properties of the object model *)

(** ** add_object *)

Lemma dict_setitem_twice (d : dict) (k : TreeObjectData) (v1 v2 : bytes) :
  dict_setitem (dict_setitem d k v1) k v2 = dict_setitem d k v2.
Proof.
  induction d as [|[k' v'] rest IH]; simpl.
  - rewrite TreeObjectData_eq_refl. reflexivity.
  - destruct (TreeObjectData_eq k' k) eqn:E; simpl; rewrite E; [reflexivity|].
    rewrite IH. reflexivity.
Qed.

Lemma dict_setitem_length (d : dict) (k : TreeObjectData) (v : bytes) :
  length (dict_setitem d k v)
  = match dict_get d k with Some _ => length d | None => S (length d) end.
Proof.
  induction d as [|[k' v'] rest IH]; simpl; [reflexivity|].
  destruct (TreeObjectData_eq k' k); simpl; [reflexivity|].
  rewrite IH. destruct (dict_get rest k); reflexivity.
Qed.

(** X1.  After [add_object(data, h)] the Tree maps [data] to [h], every
    other key to what it was mapped to before, and keeps its removal flag
    and the uniqueness of its keys. *)
Theorem add_object_lookup (t : Tree) (data other : TreeObjectData) (h : bytes) :
  dict_get (children (Tree_add_object t data h)) data = Some h
  /\ (other <> data ->
      dict_get (children (Tree_add_object t data h)) other
      = dict_get (children t) other)
  /\ Tree_is_removed (Tree_add_object t data h) = Tree_is_removed t
  /\ (dict_wf (children t) -> dict_wf (children (Tree_add_object t data h))).
Proof.
  simpl. split; [apply dict_get_setitem_same|]. split.
  - intros N. apply dict_get_setitem_other. congruence.
  - split; [reflexivity | apply dict_setitem_wf].
Qed.

(** X2.  Two [add_object] calls for one key amount to the last one, and a
    call makes the Tree one entry longer exactly when the key is new. *)
Theorem add_object_overwrite (t : Tree) (data : TreeObjectData) (h1 h2 : bytes) :
  Tree_add_object (Tree_add_object t data h1) data h2 = Tree_add_object t data h2
  /\ length (children (Tree_add_object t data h1))
     = match dict_get (children t) data with
       | Some _ => length (children t)
       | None => S (length (children t))
       end.
Proof.
  split.
  - unfold Tree_add_object. simpl. rewrite dict_setitem_twice. reflexivity.
  - apply dict_setitem_length.
Qed.

(** ** Tree.__eq__ *)

Lemma dict_get_some_in (d : dict) (k : TreeObjectData) (v : bytes) :
  dict_get d k = Some v -> In (k, v) d.
Proof.
  induction d as [|[k' v'] rest IH]; simpl; [discriminate|].
  destruct (TreeObjectData_eq k' k) eqn:E.
  - apply TreeObjectData_eq_eq in E. subst k'. intros H. injection H as ->. auto.
  - auto.
Qed.

Lemma dict_wf_NoDup (d : dict) : dict_wf d -> NoDup d.
Proof. unfold dict_wf, keys. apply NoDup_map_inv. Qed.

Lemma dict_eq_incl (d1 d2 : dict) : dict_eq d1 d2 = true -> incl d1 d2.
Proof.
  unfold dict_eq. intros H. apply andb_true_iff in H as [_ H].
  rewrite forallb_forall in H. intros [k v] I. specialize (H _ I). simpl in H.
  destruct (dict_get d2 k) as [v'|] eqn:G; [|discriminate].
  apply bytes_eqb_eq in H. subst v'. apply dict_get_some_in, G.
Qed.

Lemma dict_eq_iff_permutation (d1 d2 : dict) :
  dict_wf d1 -> dict_wf d2 -> (dict_eq d1 d2 = true <-> Permutation d1 d2).
Proof.
  intros W1 W2. split; [|apply dict_eq_permutation, W1].
  intros H. apply NoDup_Permutation_bis.
  - apply dict_wf_NoDup, W1.
  - unfold dict_eq in H. apply andb_true_iff in H as [L _].
    apply Nat.eqb_eq in L. lia.
  - apply dict_eq_incl, H.
Qed.

(** X3.  Two Trees are equal under [==] exactly when they hold the same
    entries, in any order, and have the same removal flag. *)
Theorem Tree_eq_iff_same_entries (t1 t2 : Tree) :
  dict_wf (children t1) -> dict_wf (children t2) ->
  (Tree_eq t1 t2 = true <->
   Permutation (children t1) (children t2)
   /\ Tree_is_removed t1 = Tree_is_removed t2).
Proof.
  intros W1 W2. rewrite Tree_eq_iff, (dict_eq_iff_permutation W1 W2). tauto.
Qed.

Lemma Tree_eq_iff_same_entries_witness :
  let a := TreeObjectData_init "a.txt" Blob_class in
  let s := TreeObjectData_init "sub/" Tree_class in
  let t1 := add_objects (Tree_init false) [(a, hash_hello); (s, hash_empty_tree)] in
  let t2 := add_objects (Tree_init false) [(s, hash_empty_tree); (a, hash_hello)] in
  (dict_wf (children t1) /\ dict_wf (children t2))
  /\ (Tree_eq t1 t2 = true <->
      Permutation (children t1) (children t2)
      /\ Tree_is_removed t1 = Tree_is_removed t2).
Proof.
  intros a s t1 t2.
  assert (W1 : dict_wf (children t1)).
  { apply add_objects_wf. constructor. }
  assert (W2 : dict_wf (children t2)).
  { apply add_objects_wf. constructor. }
  split; [exact (conj W1 W2)|]. exact (@Tree_eq_iff_same_entries t1 t2 W1 W2).
Defined.

(** X4.  On Trees [==] is reflexive, symmetric and transitive. *)
Theorem Tree_eq_equivalence (t1 t2 t3 : Tree) :
  dict_wf (children t1) -> dict_wf (children t2) -> dict_wf (children t3) ->
  Tree_eq t1 t1 = true
  /\ (Tree_eq t1 t2 = true -> Tree_eq t2 t1 = true)
  /\ (Tree_eq t1 t2 = true -> Tree_eq t2 t3 = true -> Tree_eq t1 t3 = true).
Proof.
  intros W1 W2 W3. rewrite !Tree_eq_iff.
  rewrite (dict_eq_iff_permutation W1 W1), (dict_eq_iff_permutation W1 W2),
    (dict_eq_iff_permutation W2 W1), (dict_eq_iff_permutation W2 W3),
    (dict_eq_iff_permutation W1 W3).
  split; [split; reflexivity|]. split.
  - intros [Hp Hr]. split; [apply Permutation_sym, Hp | congruence].
  - intros [Hp Hr] [Hp' Hr']. split; [eapply perm_trans; eauto | congruence].
Qed.

Lemma Tree_eq_equivalence_witness :
  let a := TreeObjectData_init "a.txt" Blob_class in
  let s := TreeObjectData_init "sub/" Tree_class in
  let t1 := add_objects (Tree_init false) [(a, hash_hello); (s, hash_empty_tree)] in
  let t2 := add_objects (Tree_init false) [(s, hash_empty_tree); (a, hash_hello)] in
  (dict_wf (children t1) /\ dict_wf (children t2))
  /\ Tree_eq t1 t1 = true
  /\ (Tree_eq t1 t2 = true -> Tree_eq t2 t1 = true)
  /\ (Tree_eq t1 t2 = true -> Tree_eq t2 t1 = true -> Tree_eq t1 t1 = true).
Proof.
  intros a s t1 t2.
  assert (W1 : dict_wf (children t1)).
  { apply add_objects_wf. constructor. }
  assert (W2 : dict_wf (children t2)).
  { apply add_objects_wf. constructor. }
  split; [exact (conj W1 W2)|]. exact (@Tree_eq_equivalence t1 t2 t1 W1 W2 W1).
Defined.

(** ** Commit.__hash__ *)

Lemma Z_of_byte_range (x : byte) : (0 <= Z_of_byte x < 256)%Z.
Proof.
  unfold Z_of_byte. pose proof (Byte.to_N_bounded x) as B. lia.
Qed.

Lemma Z_of_byte_inj (x y : byte) : Z_of_byte x = Z_of_byte y -> x = y.
Proof.
  unfold Z_of_byte. intros E. apply N2Z.inj in E.
  assert (H : Some x = Some y) by (rewrite <- (Byte.of_to_N x), <- (Byte.of_to_N y), E; reflexivity).
  injection H as ->. reflexivity.
Qed.

Lemma int_from_bytes_snoc (b : bytes) (x : byte) :
  int_from_bytes (b ++ [x]) = (256 * int_from_bytes b + Z_of_byte x)%Z.
Proof. unfold int_from_bytes. rewrite fold_left_app. reflexivity. Qed.

Lemma int_from_bytes_range (b : bytes) :
  (0 <= int_from_bytes b < 256 ^ Z.of_nat (length b))%Z.
Proof.
  induction b as [|x b IH] using rev_ind; [cbn; lia|].
  rewrite int_from_bytes_snoc, length_app. simpl length.
  replace (Z.of_nat (length b + 1)) with (Z.succ (Z.of_nat (length b))) by lia.
  rewrite Z.pow_succ_r by lia. pose proof (Z_of_byte_range x). lia.
Qed.

Lemma int_from_bytes_inj (a b : bytes) :
  length a = length b -> int_from_bytes a = int_from_bytes b -> a = b.
Proof.
  revert b. induction a as [|x a IH] using rev_ind; intros b L E.
  - destruct b; [reflexivity | discriminate L].
  - destruct (exists_last (l := b)) as (b' & y & ->).
    { intros ->. rewrite length_app in L. simpl in L. lia. }
    rewrite !length_app in L. simpl in L.
    rewrite !int_from_bytes_snoc in E.
    pose proof (Z_of_byte_range x). pose proof (Z_of_byte_range y).
    assert (Ex : Z_of_byte x = Z_of_byte y) by lia.
    assert (Ea : int_from_bytes a = int_from_bytes b') by lia.
    apply Z_of_byte_inj in Ex. subst y. f_equal. apply IH; [lia | exact Ea].
Qed.

Lemma int_from_bytes_signed_spec (b : bytes) :
  b <> [] ->
  let half := (2 ^ (8 * Z.of_nat (length b) - 1))%Z in
  (- half <= int_from_bytes_signed b < half)%Z
  /\ (int_from_bytes_signed b = int_from_bytes b
      \/ int_from_bytes_signed b = int_from_bytes b - 2 * half)%Z.
Proof.
  intros N half. pose proof (int_from_bytes_range b) as R.
  assert (Hn : (0 < Z.of_nat (length b))%Z) by (destruct b; [contradiction | simpl; lia]).
  assert (Hp : (256 ^ Z.of_nat (length b) = 2 * half)%Z).
  { subst half. change 256%Z with (2 ^ 8)%Z. rewrite <- Z.pow_mul_r by lia.
    replace (8 * Z.of_nat (length b))%Z with (Z.succ (8 * Z.of_nat (length b) - 1)) at 1 by lia.
    rewrite Z.pow_succ_r by lia. reflexivity. }
  assert (Hm : (2 ^ (8 * Z.of_nat (length b)) = 2 * half)%Z).
  { rewrite <- Hp. change 256%Z with (2 ^ 8)%Z. rewrite <- Z.pow_mul_r by lia. reflexivity. }
  unfold int_from_bytes_signed. destruct b as [|x b']; [contradiction|].
  fold half. rewrite Hm.
  destruct (half <=? int_from_bytes (x :: b'))%Z eqn:E.
  - apply Z.leb_le in E. split; [lia | right; reflexivity].
  - apply Z.leb_gt in E. split; [lia | left; reflexivity].
Qed.

Lemma int_from_bytes_signed_inj (a b : bytes) :
  length a = length b ->
  int_from_bytes_signed a = int_from_bytes_signed b -> a = b.
Proof.
  intros L E. destruct a as [|x a'].
  - destruct b; [reflexivity | discriminate L].
  - destruct b as [|y b']; [discriminate L|].
    apply int_from_bytes_inj; [exact L|].
    destruct (@int_from_bytes_signed_spec (x :: a')) as [Ra Ca]; [discriminate|].
    destruct (@int_from_bytes_signed_spec (y :: b')) as [Rb Cb]; [discriminate|].
    pose proof (int_from_bytes_range (x :: a')) as Ia.
    pose proof (int_from_bytes_range (y :: b')) as Ib.
    rewrite <- L in Rb, Cb, Ib. 
    set (half := (2 ^ (8 * Z.of_nat (length (x :: a')) - 1))%Z) in *.
    assert (Hp : (256 ^ Z.of_nat (length (x :: a')) = 2 * half)%Z).
    { subst half. change 256%Z with (2 ^ 8)%Z. rewrite <- Z.pow_mul_r by lia.
      replace (8 * Z.of_nat (length (x :: a')))%Z
        with (Z.succ (8 * Z.of_nat (length (x :: a')) - 1)) at 1 by lia.
      rewrite Z.pow_succ_r; [reflexivity|]. simpl length. lia. }
    rewrite Hp in Ia, Ib. lia.
Qed.

(** X5.  [__hash__] of a Commit is a signed 160-bit integer, and two
    Commits have the same [__hash__] exactly when they have the same
    [get_hash()]. *)
Theorem Commit_hash_range_and_injective (P : Pickle) (c1 c2 : Commit) :
  (- 2 ^ 159 <= Commit_hash c1 < 2 ^ 159)%Z
  /\ (Commit_hash c1 = Commit_hash c2 <-> Commit_get_hash c1 = Commit_get_hash c2).
Proof.
  unfold Commit_hash.
  assert (L : forall c : Commit, length (Commit_get_hash c) = 20).
  { intros c. apply sha1_length. }
  split.
  - destruct (@int_from_bytes_signed_spec (Commit_get_hash c1)) as [R _].
    + intros E. pose proof (L c1) as L1. rewrite E in L1. discriminate L1.
    + rewrite (L c1) in R. exact R.
  - split; [|intros ->; reflexivity].
    apply int_from_bytes_signed_inj. rewrite !L. reflexivity.
Qed.

Example int_from_bytes_signed_values :
  int_from_bytes_signed [xff] = (-1)%Z
  /\ int_from_bytes_signed [x80; x00] = (-32768)%Z
  /\ int_from_bytes_signed [x7f; xff] = 32767%Z
  /\ int_from_bytes_signed [] = 0%Z.
Proof. repeat split; reflexivity. Qed.

(** X6.  [__eq__] and [__hash__] of Commit do not go together: two Commits
    that are equal under [==] but whose trees are not the same value (the
    same entries in another order) have different [get_hash()] and
    different [__hash__], as long as SHA-1 does not collide on the two
    serialized trees nor on the two hash inputs of the Commits. *)
Theorem Commit_eq_but_different_hash (P : Pickle) (c1 c2 : Commit) :
  pickle_roundtrip P ->
  Commit_eq c1 c2 = true ->
  tree c1 <> tree c2 ->
  sha1_separates (Tree_serialize (tree c1)) (Tree_serialize (tree c2)) ->
  sha1_separates
    (Commit_header ++ Tree_get_hash (tree c1) ++ parent_commit_hash c1)
    (Commit_header ++ Tree_get_hash (tree c2) ++ parent_commit_hash c2) ->
  Commit_get_hash c1 <> Commit_get_hash c2
  /\ Commit_hash c1 <> Commit_hash c2.
Proof.
  intros R Heq Ht St Sc.
  assert (Hh : Tree_get_hash (tree c1) <> Tree_get_hash (tree c2)).
  { apply (proj2 (Tree_get_hash_separates R Ht)), St. }
  assert (Hg : Commit_get_hash c1 <> Commit_get_hash c2).
  { unfold Commit_get_hash. intros E. apply Sc in E.
    apply app_inv_head in E. apply app_eq_same_length in E.
    - apply Hh, E.
    - unfold Tree_get_hash. rewrite !sha1_length. reflexivity. }
  split; [exact Hg|].
  unfold Commit_hash. intros E. apply Hg.
  apply int_from_bytes_signed_inj; [|exact E].
  unfold Commit_get_hash. rewrite !sha1_length. reflexivity.
Qed.

Lemma Commit_eq_but_different_hash_witness :
  let a := TreeObjectData_init "a.txt" Blob_class in
  let s := TreeObjectData_init "sub/" Tree_class in
  let t1 := add_objects (Tree_init false) [(a, hash_hello); (s, hash_empty_tree)] in
  let t2 := add_objects (Tree_init false) [(s, hash_empty_tree); (a, hash_hello)] in
  let c1 := Commit_init t1 "first" in
  let c2 := Commit_init t2 "first" in
  (pickle_roundtrip RefCodec.codec
   /\ Commit_eq c1 c2 = true
   /\ tree c1 <> tree c2
   /\ sha1_separates (Tree_serialize (P:=RefCodec.codec) (tree c1))
                     (Tree_serialize (P:=RefCodec.codec) (tree c2))
   /\ sha1_separates
        (Commit_header ++ Tree_get_hash (P:=RefCodec.codec) (tree c1)
         ++ parent_commit_hash c1)
        (Commit_header ++ Tree_get_hash (P:=RefCodec.codec) (tree c2)
         ++ parent_commit_hash c2))
  /\ Commit_get_hash (P:=RefCodec.codec) c1 <> Commit_get_hash (P:=RefCodec.codec) c2
  /\ Commit_hash (P:=RefCodec.codec) c1 <> Commit_hash (P:=RefCodec.codec) c2.
Proof.
  intros a s t1 t2 c1 c2.
  assert (H1 : Commit_eq c1 c2 = true) by (vm_compute; reflexivity).
  assert (H2 : tree c1 <> tree c2).
  { intros E. vm_compute in E. discriminate E. }
  assert (H3 : sha1_separates (Tree_serialize (P:=RefCodec.codec) (tree c1))
                              (Tree_serialize (P:=RefCodec.codec) (tree c2))).
  { intros E. vm_compute in E. discriminate E. }
  assert (H4 : sha1_separates
        (Commit_header ++ Tree_get_hash (P:=RefCodec.codec) (tree c1)
         ++ parent_commit_hash c1)
        (Commit_header ++ Tree_get_hash (P:=RefCodec.codec) (tree c2)
         ++ parent_commit_hash c2)).
  { intros E. vm_compute in E. discriminate E. }
  split; [exact (conj RefCodecFacts.codec_roundtrip (conj H1 (conj H2 (conj H3 H4))))|].
  exact (@Commit_eq_but_different_hash RefCodec.codec c1 c2
           RefCodecFacts.codec_roundtrip H1 H2 H3 H4).
Defined.

(** ** Paths: join and basename together *)

Lemma append_nil_r (s : string) : (s ++ "")%string = s.
Proof. induction s as [|c r IH]; simpl; congruence. Qed.

Lemma append_assoc (a b c : string) : ((a ++ b) ++ c)%string = (a ++ (b ++ c))%string.
Proof. induction a as [|x r IH]; simpl; congruence. Qed.


Lemma has_sep_append (a b : string) :
  has_sep (a ++ b) = has_sep a || has_sep b.
Proof.
  induction a as [|c r IH]; simpl; [reflexivity|].
  rewrite IH, orb_assoc. reflexivity.
Qed.

Lemma has_sep_startswith (n : string) : has_sep n = false -> startswith_sep n = false.
Proof. destruct n as [|c r]; simpl; [reflexivity|]. intros H. apply orb_false_iff in H. tauto. Qed.

Lemma endswith_sep_has_sep (s : string) : endswith_sep s = true -> has_sep s = true.
Proof.
  induction s as [|c r IH]; simpl; [discriminate|].
  destruct r as [|d r']; [intros ->; reflexivity|].
  intros H. rewrite (IH H). apply orb_true_r.
Qed.

Lemma endswith_sep_append (a b : string) :
  b <> EmptyString -> endswith_sep (a ++ b) = endswith_sep b.
Proof.
  intros N. induction a as [|c r IH]; [reflexivity|].
  simpl. destruct (r ++ b)%string eqn:E; [|exact IH].
  destruct r; simpl in E; [contradiction | discriminate].
Qed.

Lemma endswith_sep_split (p : string) :
  endswith_sep p = true -> exists q : string, p = (q ++ String sep EmptyString)%string.
Proof.
  induction p as [|c r IH]; simpl; [discriminate|].
  destruct r as [|d r'].
  - intros H. apply Ascii.eqb_eq in H. subst c. exists EmptyString. reflexivity.
  - intros H. destruct (IH H) as [q Hq]. exists (String c q). simpl. congruence.
Qed.

Lemma join_name (a n : string) :
  has_sep n = false -> join a n = (join_prefix a ++ n)%string.
Proof.
  intros H. unfold join, join_prefix. rewrite (@has_sep_startswith n H).
  destruct (is_empty a || endswith_sep a); [reflexivity|].
  rewrite append_assoc. reflexivity.
Qed.

Lemma join_prefix_ends (a : string) :
  join_prefix a = EmptyString \/ endswith_sep (join_prefix a) = true.
Proof.
  unfold join_prefix. destruct a as [|c r]; [left; reflexivity|]. right.
  change (is_empty (String c r) || endswith_sep (String c r))
    with (endswith_sep (String c r)).
  destruct (endswith_sep (String c r)) eqn:E; [exact E|].
  apply endswith_sep_append. discriminate.
Qed.

Lemma join_name_endswith (a n : string) :
  file_name n -> join a n <> EmptyString /\ endswith_sep (join a n) = false.
Proof.
  intros [Nn Hn]. rewrite (@join_name a n Hn). split.
  - destruct (join_prefix a); simpl; [exact Nn | discriminate].
  - rewrite endswith_sep_append by exact Nn.
    destruct (endswith_sep n) eqn:E; [|reflexivity].
    apply endswith_sep_has_sep in E. congruence.
Qed.

(** The path of a directory entry: the joined path and a separator. *)
Lemma join_dir (a n : string) :
  file_name n -> join (join a n) "" = (join a n ++ String sep EmptyString)%string.
Proof.
  intros F. destruct (@join_name_endswith a n F) as [Ne He].
  unfold join at 1. simpl startswith_sep. rewrite He, orb_false_r.
  destruct (join a n); [contradiction | reflexivity].
Qed.

Lemma rfind_sep_append (p n : string) :
  has_sep n = false -> rfind_sep (p ++ n) = rfind_sep p.
Proof.
  intros H. induction p as [|c r IH]; simpl.
  - apply rfind_sep_none, H.
  - rewrite IH. reflexivity.
Qed.

Lemma rfind_sep_trailing (q : string) :
  rfind_sep (q ++ String sep EmptyString) = Z.of_nat (String.length q).
Proof.
  induction q as [|c r IH]; [reflexivity|].
  cbn [String.append rfind_sep String.length]. rewrite IH.
  destruct (0 <=? Z.of_nat (String.length r))%Z eqn:E; [lia|].
  apply Z.leb_gt in E. lia.
Qed.

Lemma slice_from_append (p n : string) : slice_from (String.length p) (p ++ n) = n.
Proof. induction p as [|c r IH]; [destruct n; reflexivity | exact IH]. Qed.

Lemma basename_after_prefix (p n : string) :
  has_sep n = false ->
  p = EmptyString \/ endswith_sep p = true ->
  basename (p ++ n) = n.
Proof.
  intros H [-> | E]; unfold basename.
  - simpl. apply rfind_sep_none in H. rewrite H. reflexivity.
  - destruct (endswith_sep_split _ E) as [q ->].
    rewrite (@rfind_sep_append _ n H), rfind_sep_trailing.
    replace (Z.to_nat (Z.of_nat (String.length q) + 1))
      with (String.length (q ++ String sep EmptyString)).
    + apply slice_from_append.
    + clear. induction q as [|c r IH]; simpl; [reflexivity|]. rewrite IH. lia.
Qed.

(** X7.  For a name without separator, [basename(join(a, n))] is [n]; the
    path [join(join(a, n), '')] of a directory entry ends in a separator
    and its basename is empty.  So the [name] of a file entry made by
    [initialize_from_directory] is the listed name, and the [name] of a
    directory entry is the empty string. *)
Theorem entry_name (directory n : string) (data : bytes)
    (entries : list (string * fsnode)) :
  file_name n ->
  name (entry_key directory (n, File data)) = n
  /\ name (entry_key directory (n, Dir entries)) = EmptyString
  /\ endswith_sep (path (entry_key directory (n, Dir entries))) = true.
Proof.
  intros F. pose proof F as [Nn Hn]. unfold name, entry_key. simpl.
  split; [|split].
  - rewrite (@join_name directory n Hn). apply basename_after_prefix;
      [exact Hn | apply join_prefix_ends].
  - rewrite (@join_dir directory n F). apply basename_trailing_sep.
  - rewrite (@join_dir directory n F). apply endswith_sep_append. discriminate.
Qed.

Lemma entry_name_witness :
  file_name "sub"
  /\ name (entry_key "repo" ("sub"%string, File (b_ "hello"))) = "sub"%string
  /\ name (entry_key "repo" ("sub"%string, Dir [])) = EmptyString
  /\ endswith_sep (path (entry_key "repo" ("sub"%string, Dir []))) = true.
Proof.
  assert (F : file_name "sub") by (split; [discriminate | reflexivity]).
  split; [exact F|]. exact (@entry_name "repo" "sub" (b_ "hello") [] F).
Defined.

(** ** The directory materializer, in general *)









Lemma join_empty_endswith (q : string) :
  join q "" = EmptyString \/ endswith_sep (join q "") = true.
Proof.
  unfold join. simpl startswith_sep. destruct q as [|c r]; [left; reflexivity|].
  right. change (is_empty (String c r) || endswith_sep (String c r))
           with (endswith_sep (String c r)).
  destruct (endswith_sep (String c r)) eqn:E.
  - rewrite append_nil_r. exact E.
  - apply endswith_sep_append. discriminate.
Qed.


(* ===================================================================== *)
(** * Properties of the shell *)

(** ** str.split *)

Lemma split_space_not_nil (s : string) : split_space s <> [].
Proof.
  induction s as [|c r IH]; simpl; [discriminate|].
  destruct (Ascii.eqb c " "); [discriminate|].
  destruct (split_space r); discriminate.
Qed.

Lemma split_space_length (s : string) :
  length (split_space s) = S (count_space s).
Proof.
  induction s as [|c r IH]; simpl; [reflexivity|].
  destruct (Ascii.eqb c " "); simpl; [rewrite IH; reflexivity|].
  pose proof (split_space_not_nil r) as N.
  destruct (split_space r); [contradiction | exact IH].
Qed.

Lemma join_space_split (s : string) : join_space (split_space s) = s.
Proof.
  induction s as [|c r IH]; [reflexivity|].
  cbn [split_space]. destruct (Ascii.eqb c " ") eqn:E.
  - apply Ascii.eqb_eq in E. subst c.
    pose proof (split_space_not_nil r) as N.
    destruct (split_space r) as [|p ps]; [contradiction|].
    change (String " " (join_space (p :: ps)) = String " " r). f_equal. exact IH.
  - pose proof (split_space_not_nil r) as N.
    destruct (split_space r) as [|p ps]; [contradiction|].
    destruct ps as [|p' ps'].
    + change (String c p = String c r). f_equal. exact IH.
    + change (String c (p ++ String " " (join_space (p' :: ps'))) = String c r).
      f_equal. exact IH.
Qed.

Lemma split_space_no_space (s : string) :
  Forall (fun piece => count_space piece = 0) (split_space s).
Proof.
  induction s as [|c r IH]; simpl; [repeat constructor|].
  destruct (Ascii.eqb c " ") eqn:E; [constructor; [reflexivity | exact IH]|].
  destruct (split_space r) as [|p ps]; [repeat constructor; simpl; rewrite E; reflexivity|].
  inversion IH as [|? ? Hp Hps]; subst.
  constructor; [simpl; rewrite E; exact Hp | exact Hps].
Qed.

(** ** do_add *)

(** X10.  In a shell with a repository, [do_add] with an argument other
    than ['.'] returns, leaves the shell as it is, and hands one
    TreeObjectData to [add_to_staged] for every piece of the argument
    between spaces, empty pieces included: one more than there are
    spaces.  The pieces, joined by spaces, are the argument. *)
Theorem do_add_pieces (os : OS) (self : CVSShell) (c : CVS) (repo arg : string) :
  cvs self = Some c ->
  path_to_repository self = Some repo ->
  arg <> "."%string ->
  do_add os self arg = Returned self (map (staged_data os repo) (split_space arg))
  /\ length (map (staged_data os repo) (split_space arg)) = S (count_space arg)
  /\ join_space (split_space arg) = arg
  /\ Forall (fun piece => count_space piece = 0) (split_space arg).
Proof.
  intros Hc Hp Ha. split.
  - unfold do_add. rewrite Hc, Hp.
    destruct (String.eqb arg ".") eqn:E; [apply String.eqb_eq in E; contradiction|].
    pose proof (split_space_not_nil arg) as N.
    destruct (split_space arg); [contradiction | reflexivity].
  - rewrite length_map. split; [apply split_space_length|].
    split; [apply join_space_split | apply split_space_no_space].
Qed.

Lemma do_add_pieces_witness :
  let self := {| cvs := Some (CVS_init "/home/proj");
                 path_to_repository := Some "/home/proj"%string;
                 working_directory := "/home/proj"; prompt := None;
                 getcwd := "/home/proj" |} in
  (cvs self = Some (CVS_init "/home/proj")
   /\ path_to_repository self = Some "/home/proj"%string
   /\ "a.txt  sub gone"%string <> "."%string)
  /\ do_add example_os self "a.txt  sub gone"
     = Returned self
         [ {| path := "/home/proj/a.txt"; object_type := Blob_class;
              TreeObjectData_is_removed := false |};
           {| path := "/home/proj/"; object_type := Tree_class;
              TreeObjectData_is_removed := false |};
           {| path := "/home/proj/sub/"; object_type := Tree_class;
              TreeObjectData_is_removed := false |};
           {| path := "/home/proj/gone"; object_type := Blob_class;
              TreeObjectData_is_removed := true |} ].
Proof.
  intros self.
  assert (H : cvs self = Some (CVS_init "/home/proj")
              /\ path_to_repository self = Some "/home/proj"%string
              /\ "a.txt  sub gone"%string <> "."%string).
  { split; [reflexivity|]. split; [reflexivity | discriminate]. }
  split; [exact H|].
  destruct H as (H1 & H2 & H3).
  exact (proj1 (@do_add_pieces example_os self _ _ _ H1 H2 H3)).
Defined.

(** X11.  [do_add] marks an entry removed exactly when its path does not
    exist.  The entry is a Tree entry exactly when the path is a directory,
    or does not exist and ends in a separator; a Tree entry carries the
    path with a closing separator, a Blob entry the path as it is. *)
Theorem staged_data_cases (os : OS) (repo p : string) :
  let full := join repo p in
  let d := staged_data os repo p in
  TreeObjectData_is_removed d = negb (path_exists os full)
  /\ (object_type d = Tree_class <->
      path_isdir os full = true
      \/ (path_exists os full = false /\ endswith_sep full = true))
  /\ (object_type d = Tree_class ->
      path d = join full ""
      /\ (path d = EmptyString \/ endswith_sep (path d) = true))
  /\ (object_type d = Blob_class -> path d = full).
Proof.
  intros full d. subst d. unfold staged_data. fold full.
  pose proof (join_empty_endswith full) as J.
  destruct (path_isdir os full), (path_exists os full), (endswith_sep full);
    simpl; repeat split; intros; try discriminate; try reflexivity;
    try exact J; intuition congruence.
Qed.



Lemma join_relative (a b : string) :
  startswith_sep b = false -> join a b = (join_prefix a ++ b)%string.
Proof.
  intros H. unfold join, join_prefix. rewrite H.
  destruct (is_empty a || endswith_sep a); [reflexivity|].
  rewrite append_assoc. reflexivity.
Qed.




(** ** os.path.commonprefix *)

Lemma startswith_refl (s : string) : startswith s s = true.
Proof. induction s as [|c r IH]; simpl; [reflexivity|]. rewrite Ascii.eqb_refl. exact IH. Qed.

Lemma startswith_empty (s : string) : startswith s EmptyString = true.
Proof. destruct s; reflexivity. Qed.

Lemma str_ltb_irrefl (s : string) : str_ltb s s = false.
Proof.
  induction s as [|c r IH]; simpl; [reflexivity|].
  rewrite N.ltb_irrefl, Ascii.eqb_refl. exact IH.
Qed.

Lemma str_ltb_asym (a b : string) : str_ltb a b = true -> str_ltb b a = false.
Proof.
  revert b. induction a as [|x a' IH]; intros [|y b']; simpl; try congruence.
  destruct (N_of_ascii x <? N_of_ascii y)%N eqn:L.
  - intros _. apply N.ltb_lt in L.
    destruct (N_of_ascii y <? N_of_ascii x)%N eqn:L'; [apply N.ltb_lt in L'; lia|].
    destruct (Ascii.eqb y x) eqn:E; [|reflexivity].
    apply Ascii.eqb_eq in E. subst y. lia.
  - destruct (Ascii.eqb x y) eqn:E; [|discriminate].
    apply Ascii.eqb_eq in E. subst y. rewrite L, Ascii.eqb_refl. apply IH.
Qed.

Lemma str_ltb_total (a b : string) :
  str_ltb a b = false -> str_ltb b a = false -> a = b.
Proof.
  revert b. induction a as [|x a' IH]; intros [|y b']; simpl; try congruence.
  destruct (N_of_ascii x <? N_of_ascii y)%N eqn:L; [discriminate|].
  destruct (N_of_ascii y <? N_of_ascii x)%N eqn:L'; [discriminate|].
  apply N.ltb_ge in L, L'.
  assert (E : x = y).
  { rewrite <- (ascii_N_embedding x), <- (ascii_N_embedding y). f_equal. lia. }
  subst y. rewrite Ascii.eqb_refl. intros H1 H2. rewrite (IH b' H1 H2). reflexivity.
Qed.

(** A string that starts with [r] is not below [r]. *)
Lemma startswith_not_ltb (d r : string) : startswith d r = true -> str_ltb d r = false.
Proof.
  revert d. induction r as [|c r' IH]; intros d H; [destruct d; reflexivity|].
  destruct d as [|x d']; [discriminate H|]. simpl in H.
  apply andb_true_iff in H as [E H]. apply Ascii.eqb_eq in E. subst x.
  simpl. rewrite N.ltb_irrefl, Ascii.eqb_refl. apply IH, H.
Qed.

Lemma startswith_ltb_or_eq (d r : string) :
  startswith d r = true -> str_ltb r d = false -> r = d.
Proof.
  revert d. induction r as [|c r' IH]; intros d H L.
  - destruct d; [reflexivity | discriminate L].
  - destruct d as [|x d']; [discriminate H|]. simpl in H.
    apply andb_true_iff in H as [E H]. apply Ascii.eqb_eq in E. subst x.
    simpl in L. rewrite N.ltb_irrefl, Ascii.eqb_refl in L.
    rewrite (IH d' H L). reflexivity.
Qed.

Lemma commonprefix_loop_prefix (s1 s2 : string) :
  startswith s2 s1 = true -> commonprefix_loop s1 s2 = Some s1.
Proof.
  revert s2. induction s1 as [|c r IH]; intros s2 H; [reflexivity|].
  destruct s2 as [|x s2']; [discriminate H|]. simpl in H.
  apply andb_true_iff in H as [E H]. simpl. rewrite E, (IH s2' H). reflexivity.
Qed.

Lemma commonprefix_loop_common (s1 s2 c : string) :
  commonprefix_loop s1 s2 = Some c ->
  startswith s1 c = true /\ startswith s2 c = true.
Proof.
  revert s2 c. induction s1 as [|x r IH]; intros s2 c H; simpl in H.
  - injection H as <-. split; [reflexivity | apply startswith_empty].
  - destruct s2 as [|y s2']; [discriminate H|].
    destruct (Ascii.eqb x y) eqn:E.
    + destruct (commonprefix_loop r s2') as [c'|] eqn:L; [|discriminate H].
      injection H as <-. destruct (IH s2' c' L) as [H1 H2]. simpl.
      rewrite Ascii.eqb_refl, H1. apply Ascii.eqb_eq in E. subst y.
      rewrite Ascii.eqb_refl, H2. auto.
    + injection H as <-. auto.
Qed.

Lemma commonprefix_loop_ordered (s1 s2 : string) :
  str_ltb s2 s1 = false -> commonprefix_loop s1 s2 <> None.
Proof.
  revert s2. induction s1 as [|x r IH]; intros s2 L; [discriminate|].
  destruct s2 as [|y s2']; [discriminate L|]. simpl in *.
  destruct (Ascii.eqb x y) eqn:E; [|discriminate].
  apply Ascii.eqb_eq in E. subst y. rewrite N.ltb_irrefl, Ascii.eqb_refl in L.
  specialize (IH s2' L). destruct (commonprefix_loop r s2'); [discriminate | contradiction].
Qed.

(** [commonprefix] does not raise, its result is a leading part of both
    strings, and it is [r] exactly when [d] starts with [r]. *)
Lemma commonprefix_spec (d r : string) :
  exists c : string,
    commonprefix d r = Some c
    /\ startswith d c = true /\ startswith r c = true
    /\ (c = r <-> startswith d r = true).
Proof.
  assert (N : commonprefix d r <> None).
  { unfold commonprefix, str_min, str_max.
    destruct (str_ltb r d) eqn:L1.
    - rewrite (str_ltb_asym _ _ L1). apply commonprefix_loop_ordered.
      apply str_ltb_asym, L1.
    - destruct (str_ltb d r) eqn:L2; apply commonprefix_loop_ordered;
        [exact L1 | apply str_ltb_irrefl]. }
  destruct (commonprefix d r) as [c|] eqn:C; [|contradiction].
  exists c. split; [reflexivity|].
  assert (H : startswith d c = true /\ startswith r c = true).
  { revert C. unfold commonprefix, str_min, str_max.
    destruct (str_ltb r d) eqn:L1, (str_ltb d r) eqn:L2; intros C;
      apply commonprefix_loop_common in C; try tauto.
    - rewrite (str_ltb_asym _ _ L1) in L2. discriminate L2.
    - rewrite (str_ltb_total _ _ L1 L2) in *. tauto. }
  split; [tauto|]. split; [tauto|]. split.
  - intros ->. tauto.
  - intros S. revert C. unfold commonprefix, str_min, str_max.
    rewrite (startswith_not_ltb _ _ S).
    destruct (str_ltb r d) eqn:L; intros C.
    + rewrite (commonprefix_loop_prefix _ _ S) in C. congruence.
    + rewrite (commonprefix_loop_prefix _ _ (startswith_refl d)) in C.
      rewrite (startswith_ltb_or_eq _ _ S L). congruence.
Qed.

(** ** do_cd and do_init *)

Lemma is_empty_eq (s : string) : is_empty s = true -> s = EmptyString.
Proof. destruct s; [reflexivity | discriminate]. Qed.

Ltac split_shell_inv :=
  unfold shell_inv, set_repository;
  cbn [cvs path_to_repository working_directory prompt getcwd];
  split; [|split; [|split]].

Lemma do_cd_preserves_inv (os : OS) (s s' : CVSShell) (arg : string)
    (out : list string) :
  abspath_stable os -> shell_inv s ->
  do_cd os s arg = Returned s' out -> shell_inv s'.
Proof.
  intros St Hinv. pose proof Hinv as (Hrepo & Hnone & Hcwd & Hprompt).
  unfold do_cd, _set_working_directory.
  rewrite St. set (directory := abspath os (getcwd s) arg).
  destruct (path_exists os directory); cbn [negb].
  2: { intros E. injection E as <- _. exact Hinv. }
  destruct (path_isdir os directory); [|discriminate].
  destruct (is_repository_exists os directory).
  { intros E. injection E as <- _. split_shell_inv.
    - intros r E. injection E as <-. split; [reflexivity | apply startswith_refl].
    - discriminate.
    - reflexivity.
    - right. reflexivity. }
  cbn [path_to_repository].
  destruct (path_to_repository s) as [repo|] eqn:Ep.
  2: { intros E. injection E as <- _. split_shell_inv.
       - discriminate.
       - intros _. apply Hnone. reflexivity.
       - reflexivity.
       - right. reflexivity. }
  destruct (Hrepo repo eq_refl) as [Hc _].
  destruct (is_empty repo) eqn:Ee.
  { intros E. injection E as <- _. split_shell_inv.
    - intros r E. injection E as <-. split; [exact Hc|].
      rewrite (is_empty_eq _ Ee). apply startswith_empty.
    - discriminate.
    - reflexivity.
    - right. reflexivity. }
  destruct (commonprefix_spec directory repo) as (c & -> & _ & _ & Hiff).
  destruct (String.eqb c repo) eqn:Ec; cbn [negb].
  - intros E. injection E as <- _. apply String.eqb_eq in Ec. split_shell_inv.
    + intros r E. injection E as <-. split; [exact Hc | apply Hiff, Ec].
    + discriminate.
    + reflexivity.
    + right. reflexivity.
  - intros E. injection E as <- _. split_shell_inv.
    + discriminate.
    + reflexivity.
    + reflexivity.
    + right. reflexivity.
Qed.

Lemma do_init_preserves_inv (os : OS) (s s' : CVSShell) (arg : string)
    (out : list string) :
  shell_inv s -> do_init os s arg = Returned s' out -> shell_inv s'.
Proof.
  intros Hinv. pose proof Hinv as (Hrepo & Hnone & Hcwd & Hprompt). unfold do_init.
  destruct (is_repository_exists os (working_directory s)).
  - intros E. injection E as <- _. exact Hinv.
  - intros E. injection E as <- _. split_shell_inv.
    + intros r E. injection E as <-. split; [reflexivity | apply startswith_refl].
    + discriminate.
    + exact Hcwd.
    + exact Hprompt.
Qed.

Lemma reachable_shell_inv (s : CVSShell) : reachable s -> shell_inv s.
Proof.
  induction 1 as [os cwd s out St E | os s s' arg out _ IH St E | os s s' arg out _ IH E].
  - unfold CVSShell_init in E. eapply do_cd_preserves_inv; [exact St | | exact E].
    split_shell_inv; [discriminate | reflexivity | reflexivity | left; reflexivity].
  - eapply do_cd_preserves_inv; [exact St | exact IH | exact E].
  - eapply do_init_preserves_inv; [exact IH | exact E].
Qed.

Lemma example_os_stable : abspath_stable example_os.
Proof.
  intros cwd cwd' p. unfold example_os. cbn [abspath].
  assert (H : startswith_sep
                (if startswith_sep p then p
                 else if startswith_sep cwd then join cwd p
                 else join (String sep cwd) p) = true).
  { destruct (startswith_sep p) eqn:Ep; [exact Ep|].
    assert (J : forall a, startswith_sep a = true -> startswith_sep (join a p) = true).
    { intros a Ha. rewrite (@join_relative a p Ep). unfold join_prefix.
      destruct a as [|c r]; [discriminate Ha|].
      destruct (is_empty (String c r) || endswith_sep (String c r)); exact Ha. }
    destruct (startswith_sep cwd) eqn:Ec; apply J; [exact Ec|].
    unfold startswith_sep. apply Ascii.eqb_refl. }
  rewrite H. reflexivity.
Qed.

(** The shell started in [/home/proj], which holds a repository. *)
Lemma example_shell_reachable :
  reachable {| cvs := Some (CVS_init "/home/proj");
               path_to_repository := Some "/home/proj"%string;
               working_directory := "/home/proj";
               prompt := Some "/home/proj$ "%string;
               getcwd := "/home/proj" |}.
Proof.
  apply (@reachable_new example_os "/home/proj" _ []); [apply example_os_stable|].
  reflexivity.
Qed.

(** X14.  In every state a shell goes through, the CVS object and the
    repository path are set together (the CVS object is the one made for
    that path), the working directory starts with the repository path,
    the process is in the working directory, and the prompt, once set, is
    the working directory followed by ["$ "]. *)
Theorem shell_invariant (s : CVSShell) :
  reachable s ->
  (forall repo : string,
     path_to_repository s = Some repo ->
     cvs s = Some (CVS_init repo) /\ startswith (working_directory s) repo = true)
  /\ (path_to_repository s = None -> cvs s = None)
  /\ getcwd s = working_directory s
  /\ (prompt s = None \/ prompt s = Some (working_directory s ++ "$ ")%string).
Proof. intros R. apply reachable_shell_inv in R. exact R. Qed.

Lemma shell_invariant_witness :
  let s := {| cvs := Some (CVS_init "/home/proj");
              path_to_repository := Some "/home/proj"%string;
              working_directory := "/home/proj";
              prompt := Some "/home/proj$ "%string;
              getcwd := "/home/proj" |} in
  reachable s
  /\ (forall repo : string,
        path_to_repository s = Some repo ->
        cvs s = Some (CVS_init repo) /\ startswith (working_directory s) repo = true)
  /\ getcwd s = working_directory s.
Proof.
  intros s. split; [exact example_shell_reachable|].
  destruct (@shell_invariant s example_shell_reachable) as (H1 & _ & H3 & _).
  split; [exact H1 | exact H3].
Defined.

(** X15.  [do_cd] into an existing directory that holds no repository
    keeps the repository of the shell exactly when the new directory, as a
    string, starts with the repository path; else it drops the repository
    path and the CVS object.  The test is on characters: a directory
    beside the repository whose name continues the name of the repository
    keeps it. *)
Theorem do_cd_keeps_repository (os : OS) (self : CVSShell) (arg repo : string) :
  abspath_stable os ->
  path_exists os (abspath os (getcwd self) arg) = true ->
  path_isdir os (abspath os (getcwd self) arg) = true ->
  is_repository_exists os (abspath os (getcwd self) arg) = false ->
  path_to_repository self = Some repo ->
  repo <> EmptyString ->
  let directory := abspath os (getcwd self) arg in
  exists s' : CVSShell,
    do_cd os self arg = Returned s' []
    /\ working_directory s' = directory
    /\ getcwd s' = directory
    /\ prompt s' = Some (directory ++ "$ ")%string
    /\ (startswith directory repo = true ->
        path_to_repository s' = Some repo /\ cvs s' = cvs self)
    /\ (startswith directory repo = false ->
        path_to_repository s' = None /\ cvs s' = None).
Proof.
  intros St He Hd Hr Hp Hn directory.
  unfold do_cd, _set_working_directory. rewrite St. fold directory.
  fold directory in He, Hd, Hr. rewrite He, Hd, Hr. cbn [negb path_to_repository].
  rewrite Hp.
  assert (Ee : is_empty repo = false) by (destruct repo; [contradiction | reflexivity]).
  rewrite Ee.
  destruct (commonprefix_spec directory repo) as (c & -> & _ & _ & Hiff).
  destruct (String.eqb c repo) eqn:Ec; cbn [negb]; eexists; (split; [reflexivity|]);
    cbn [working_directory getcwd prompt path_to_repository cvs set_repository];
    repeat (split; [reflexivity|]).
  - apply String.eqb_eq in Ec. split; [intros _; split; reflexivity|].
    intros F. apply Hiff in Ec. congruence.
  - apply String.eqb_neq in Ec. split; [|intros _; split; reflexivity].
    intros T. apply Hiff in T. contradiction.
Qed.

Lemma do_cd_keeps_repository_witness :
  let self := {| cvs := Some (CVS_init "/home/proj");
                 path_to_repository := Some "/home/proj"%string;
                 working_directory := "/home/proj";
                 prompt := Some "/home/proj$ "%string;
                 getcwd := "/home/proj" |} in
  (abspath_stable example_os
   /\ path_exists example_os (abspath example_os (getcwd self) "/home/project2") = true
   /\ path_isdir example_os (abspath example_os (getcwd self) "/home/project2") = true
   /\ is_repository_exists example_os
        (abspath example_os (getcwd self) "/home/project2") = false
   /\ path_to_repository self = Some "/home/proj"%string
   /\ "/home/proj"%string <> EmptyString)
  /\ do_cd example_os self "/home/project2"
     = Returned {| cvs := Some (CVS_init "/home/proj");
                   path_to_repository := Some "/home/proj"%string;
                   working_directory := "/home/project2";
                   prompt := Some "/home/project2$ "%string;
                   getcwd := "/home/project2" |} []
  /\ do_cd example_os self "/home"
     = Returned {| cvs := None; path_to_repository := None;
                   working_directory := "/home";
                   prompt := Some "/home$ "%string;
                   getcwd := "/home" |} [].
Proof.
  intros self.
  assert (N : "/home/proj"%string <> EmptyString) by discriminate.
  split; [repeat split; try reflexivity; try exact N; apply example_os_stable|].
  destruct (@do_cd_keeps_repository example_os self "/home/project2" "/home/proj"
              example_os_stable eq_refl eq_refl eq_refl eq_refl N)
    as (s1 & E1 & _).
  destruct (@do_cd_keeps_repository example_os self "/home" "/home/proj"
              example_os_stable eq_refl eq_refl eq_refl eq_refl N)
    as (s2 & E2 & _).
  split; [rewrite E1 | rewrite E2]; f_equal;
    [vm_compute in E1; injection E1 as <- | vm_compute in E2; injection E2 as <-];
    reflexivity.
Defined.

(** X16.  [do_cd] to a path that does not exist prints
    ["can not find directory: ..."] and leaves the shell as it is.
    [do_cd] to a path that exists and is not a directory raises out of
    [os.chdir] after [working_directory] has been assigned: the shell is
    left with the new [working_directory] but the old prompt, repository
    and process directory. *)
Theorem do_cd_errors (os : OS) (self : CVSShell) (arg : string) :
  let directory := abspath os (getcwd self) arg in
  (path_exists os directory = false ->
   do_cd os self arg
   = Returned self [("can not find directory: " ++ directory)%string])
  /\ (abspath_stable os ->
      path_exists os directory = true -> path_isdir os directory = false ->
      exists s' : CVSShell,
        do_cd os self arg = Raised s' NotADirectoryError
        /\ working_directory s' = directory
        /\ getcwd s' = getcwd self
        /\ prompt s' = prompt self
        /\ cvs s' = cvs self
        /\ path_to_repository s' = path_to_repository self).
Proof.
  intros directory. split.
  - intros He. unfold do_cd. fold directory. rewrite He. reflexivity.
  - intros St He Hd. unfold do_cd, _set_working_directory. rewrite St.
    fold directory. rewrite He, Hd. cbn [negb].
    eexists. split; [reflexivity|]. repeat split.
Qed.

Lemma do_cd_errors_witness :
  let self := {| cvs := Some (CVS_init "/home/proj");
                 path_to_repository := Some "/home/proj"%string;
                 working_directory := "/home/proj";
                 prompt := Some "/home/proj$ "%string;
                 getcwd := "/home/proj" |} in
  (path_exists example_os (abspath example_os (getcwd self) "nowhere") = false
   /\ abspath_stable example_os
   /\ path_exists example_os (abspath example_os (getcwd self) "a.txt") = true
   /\ path_isdir example_os (abspath example_os (getcwd self) "a.txt") = false)
  /\ do_cd example_os self "nowhere"
     = Returned self ["can not find directory: /home/proj/nowhere"%string]
  /\ exists s' : CVSShell,
       do_cd example_os self "a.txt" = Raised s' NotADirectoryError
       /\ working_directory s' = "/home/proj/a.txt"%string
       /\ getcwd s' = "/home/proj"%string.
Proof.
  intros self.
  split; [repeat split; try reflexivity; apply example_os_stable|].
  destruct (@do_cd_errors example_os self "nowhere") as [H1 _].
  destruct (@do_cd_errors example_os self "a.txt") as [_ H2].
  split; [exact (H1 eq_refl)|].
  destruct (H2 example_os_stable eq_refl eq_refl) as (s' & E & Hw & Hc & _).
  exists s'. split; [exact E|]. split; [exact Hw | exact Hc].
Defined.

(** X17.  In every state a shell goes through, [do_add] with an argument
    other than ['.'] raises [AttributeError] when the shell has no
    repository, before anything is staged, and otherwise returns with one
    TreeObjectData for every piece of the argument, made with the
    repository path; it never fails on a missing repository path. *)
Theorem do_add_reachable (os : OS) (s : CVSShell) (arg : string) :
  reachable s ->
  arg <> "."%string ->
  (cvs s = None /\ path_to_repository s = None
   /\ do_add os s arg = Raised s AttributeError)
  \/ (exists repo : string,
        cvs s = Some (CVS_init repo)
        /\ path_to_repository s = Some repo
        /\ startswith (working_directory s) repo = true
        /\ do_add os s arg
           = Returned s (map (staged_data os repo) (split_space arg))).
Proof.
  intros R Ha. apply reachable_shell_inv in R. destruct R as (Hrepo & Hnone & _ & _).
  destruct (path_to_repository s) as [repo|] eqn:Ep.
  - right. exists repo. destruct (Hrepo repo eq_refl) as [Hc Hs].
    split; [exact Hc|]. split; [reflexivity|]. split; [exact Hs|].
    unfold do_add. rewrite Hc, Ep.
    destruct (String.eqb arg ".") eqn:E; [apply String.eqb_eq in E; contradiction|].
    pose proof (split_space_not_nil arg) as N.
    destruct (split_space arg); [contradiction | reflexivity].
  - left. specialize (Hnone eq_refl). split; [exact Hnone|]. split; [reflexivity|].
    unfold do_add. rewrite Hnone. reflexivity.
Qed.

Lemma do_add_reachable_witness :
  let s := {| cvs := Some (CVS_init "/home/proj");
              path_to_repository := Some "/home/proj"%string;
              working_directory := "/home/proj";
              prompt := Some "/home/proj$ "%string;
              getcwd := "/home/proj" |} in
  (reachable s /\ "a.txt sub"%string <> "."%string)
  /\ do_add example_os s "a.txt sub"
     = Returned s [ staged_data example_os "/home/proj" "a.txt";
                    staged_data example_os "/home/proj" "sub" ].
Proof.
  intros s.
  assert (N : "a.txt sub"%string <> "."%string) by discriminate.
  split; [exact (conj example_shell_reachable N)|].
  destruct (@do_add_reachable example_os s "a.txt sub" example_shell_reachable N)
    as [(Hc & _) | (repo & _ & Hp & _ & E)].
  - discriminate Hc.
  - injection Hp as <-. exact E.
Defined.

(* ===================================================================== *)
(** * What enters the hashes *)

(** X18.  The bytes hashed for a Blob determine its content, and are never
    the bytes hashed for a Commit (the headers differ): two Blobs with
    different contents have different hashes, and a Blob and a Commit have
    different hashes, as long as SHA-1 does not collide on the hashed
    bytes. *)
Theorem hash_inputs_separate (P : Pickle) (b1 b2 : Blob) (c : Commit) :
  (content b1 <> content b2 ->
   sha1_separates (Blob_header ++ content b1) (Blob_header ++ content b2) ->
   Blob_get_hash b1 <> Blob_get_hash b2)
  /\ (sha1_separates
        (Blob_header ++ content b1)
        (Commit_header ++ Tree_get_hash (tree c) ++ parent_commit_hash c) ->
      Blob_get_hash b1 <> Commit_get_hash c).
Proof.
  split.
  - intros N S E. unfold Blob_get_hash in E. apply S in E.
    apply app_inv_head in E. contradiction.
  - intros S E. unfold Blob_get_hash, Commit_get_hash in E. apply S in E.
    discriminate E.
Qed.

Lemma hash_inputs_separate_witness :
  let b1 := Blob_init (b_ "hello") false in
  let b2 := Blob_init (b_ "world") true in
  let c := Commit_init (Tree_init false) "first" in
  (content b1 <> content b2
   /\ sha1_separates (Blob_header ++ content b1) (Blob_header ++ content b2)
   /\ sha1_separates
        (Blob_header ++ content b1)
        (Commit_header ++ Tree_get_hash (P:=RefCodec.codec) (tree c)
         ++ parent_commit_hash c))
  /\ Blob_get_hash b1 <> Blob_get_hash b2
  /\ Blob_get_hash b1 <> Commit_get_hash (P:=RefCodec.codec) c.
Proof.
  intros b1 b2 c.
  assert (H1 : content b1 <> content b2) by discriminate.
  assert (H2 : sha1_separates (Blob_header ++ content b1) (Blob_header ++ content b2)).
  { intros E. vm_compute in E. discriminate E. }
  assert (H3 : sha1_separates
                 (Blob_header ++ content b1)
                 (Commit_header ++ Tree_get_hash (P:=RefCodec.codec) (tree c)
                  ++ parent_commit_hash c)).
  { intros E. vm_compute in E. discriminate E. }
  split; [exact (conj H1 (conj H2 H3))|].
  destruct (@hash_inputs_separate RefCodec.codec b1 b2 c) as [Hb Hc].
  split; [exact (Hb H1 H2) | exact (Hc H3)].
Defined.

(** X19.  Unlike the hash of a Blob, the hash of a Tree takes in the
    removal flag: a Tree and the same Tree marked removed have different
    serialized forms, and different hashes as long as SHA-1 does not
    collide on these. *)
Theorem Tree_get_hash_sees_is_removed (P : Pickle) (d : dict) :
  pickle_roundtrip P ->
  let live := {| children := d; Tree_is_removed := false |} in
  let removed := {| children := d; Tree_is_removed := true |} in
  Tree_eq live removed = false
  /\ Tree_serialize live <> Tree_serialize removed
  /\ (sha1_separates (Tree_serialize live) (Tree_serialize removed) ->
      Tree_get_hash live <> Tree_get_hash removed).
Proof.
  intros R live removed. split.
  - unfold Tree_eq. simpl. apply andb_false_r.
  - apply (Tree_get_hash_separates R). discriminate.
Qed.

Lemma Tree_get_hash_sees_is_removed_witness :
  let d := [(TreeObjectData_init "a.txt" Blob_class, hash_hello)] in
  let live := {| children := d; Tree_is_removed := false |} in
  let removed := {| children := d; Tree_is_removed := true |} in
  (pickle_roundtrip RefCodec.codec
   /\ sha1_separates (Tree_serialize (P:=RefCodec.codec) live)
                     (Tree_serialize (P:=RefCodec.codec) removed))
  /\ Tree_get_hash (P:=RefCodec.codec) live <> Tree_get_hash (P:=RefCodec.codec) removed.
Proof.
  intros d live removed.
  assert (S : sha1_separates (Tree_serialize (P:=RefCodec.codec) live)
                             (Tree_serialize (P:=RefCodec.codec) removed)).
  { intros E. vm_compute in E. discriminate E. }
  split; [exact (conj RefCodecFacts.codec_roundtrip S)|].
  exact (proj2 (proj2 (@Tree_get_hash_sees_is_removed RefCodec.codec d
                         RefCodecFacts.codec_roundtrip)) S).
Defined.
